(** * The UIAuto command proxy (lib/uiauto-client.js)

    A shallow embedding of [UIAutoClient]: the client object, the futures it
    hands out, the socket servers that [start] creates and the connections
    they accept.  Every callback of the source is a function on the world
    state; socket and file-system events are inputs of a step function.

    Conventions of the embedding.
    - A JavaScript string is a [string] whose characters are code units
      below 256; a JavaScript number is an integer, and what is said of
      its printed form is said for magnitudes below 2^53 only
      ([safe_numbers]).
    - An object reference (a promise, a server, a connection) is its index
      in the list that stores the objects of its kind.
    - A callback [cb] built by [sendCommand] is identified with the promise
      whose [resolve] and [reject] it closes over.
    - An [async] function that awaits an external operation takes the
      outcome of that operation as an argument and runs to completion in
      one step. *)

From Stdlib Require Import ZArith String Ascii Lia DecimalString.
From stdpp Require Import base tactics option list sorting.

Set Warnings "-register-all".
Open Scope string_scope.

(** ** JavaScript values *)

Inductive JSValue :=
| JUndefined
| JNull
| JBool (b : bool)
| JNum (n : Z)
| JString (s : string)
| JArray (items : list JSValue)
| JObject (fields : list (string * JSValue)).

(** The conversion [ToString] that [new Error(v)] applies to its argument;
    [None] when the conversion throws a TypeError.  An object converts
    through its member toString: an object built by [JSON.parse] has no
    callable member of its own, so when it has a member of that name the
    conversion finds nothing to call there, gets the object itself back
    from the inherited valueOf, and throws; without such a member the
    inherited toString answers.  An array prints its items separated by
    commas, null and undefined items as nothing, and throws when an item
    does.  A number is printed in decimal, which is its JavaScript form
    for the magnitudes of [safe_numbers]. *)
Definition join_with (sep : string) (parts : list string) : string :=
  match parts with
  | [] => ""
  | p :: ps => fold_left (fun acc q => acc ++ sep ++ q) ps p
  end.

Definition has_own (name : string) (fields : list (string * JSValue)) : bool :=
  existsb (fun kv => String.eqb (fst kv) name) fields.

Fixpoint ToString (v : JSValue) : option string :=
  match v with
  | JUndefined => Some "undefined"
  | JNull => Some "null"
  | JBool true => Some "true"
  | JBool false => Some "false"
  | JNum n => Some (NilZero.string_of_int (Z.to_int n))
  | JString s => Some s
  | JArray items =>
      match
        (fix parts (items : list JSValue) : option (list string) :=
           match items with
           | [] => Some []
           | i :: rest =>
               match
                 match i with
                 | JUndefined | JNull => Some ""
                 | _ => ToString i
                 end, parts rest
               with
               | Some a, Some l => Some (a :: l)
               | _, _ => None
               end
           end) items
      with
      | Some l => Some (join_with "," l)
      | None => None
      end
  | JObject fields =>
      if has_own "toString" fields then None else Some "[object Object]"
  end.

(** The numbers of a value are integers that JavaScript prints in
    decimal, digit for digit. *)
Fixpoint safe_numbers (v : JSValue) : bool :=
  match v with
  | JNum n => (Z.abs n <? 2 ^ 53)%Z
  | JArray items => forallb safe_numbers items
  | _ => true
  end.

(** Errors.  [Error v] is the object [new Error(v)]; [TypeError m] is an
    exception of the engine; [SystemError m] is the error of a refused
    system call. *)
Inductive JSError :=
| Error (arg : JSValue)
| TypeError (msg : string)
| SystemError (msg : string).

(** [new Error(v).message]: the own property is only defined when the
    argument is not undefined, otherwise the empty message of the prototype
    shows through.  [None] when [new Error(v)] throws, so that there is no
    such object. *)
Definition message (e : JSError) : option string :=
  match e with
  | Error JUndefined => Some ""
  | Error v => ToString v
  | TypeError m => Some m
  | SystemError m => Some m
  end.

(** [new Error(v)] throws when the conversion of [v] does. *)
Definition Error_throws (v : JSValue) : bool :=
  match message (Error v) with
  | Some _ => false
  | None => true
  end.

(** [x === 0] *)
Definition strict_eq_zero (v : JSValue) : bool :=
  match v with
  | JNum n => Z.eqb n 0
  | _ => false
  end.

(** ** Outbound frame: [JSON.stringify({cmd: cmd})] *)

Definition hex_digit (n : N) : ascii :=
  match n with
  | 0 => "0" | 1 => "1" | 2 => "2" | 3 => "3" | 4 => "4" | 5 => "5"
  | 6 => "6" | 7 => "7" | 8 => "8" | 9 => "9" | 10 => "a" | 11 => "b"
  | 12 => "c" | 13 => "d" | 14 => "e" | _ => "f"
  end%N%char.

Definition dquote : ascii := ascii_of_nat 34.
Definition backslash : ascii := ascii_of_nat 92.

(** The escape of one code unit inside a JSON string literal. *)
Definition JSON_escape (a : ascii) : string :=
  let n := N_of_ascii a in
  let esc c := String backslash (String c EmptyString) in
  if (n =? 34)%N then esc dquote
  else if (n =? 92)%N then esc backslash
  else if (n =? 8)%N then esc "b"%char
  else if (n =? 12)%N then esc "f"%char
  else if (n =? 10)%N then esc "n"%char
  else if (n =? 13)%N then esc "r"%char
  else if (n =? 9)%N then esc "t"%char
  else if (n <? 32)%N then
    String backslash
      (String "u" (String "0" (String "0"
         (String (hex_digit (n / 16)) (String (hex_digit (n mod 16)) EmptyString)))))
  else String a EmptyString.

Fixpoint JSON_escape_all (s : string) : string :=
  match s with
  | EmptyString => EmptyString
  | String a rest => JSON_escape a ++ JSON_escape_all rest
  end.

Definition JSON_quote (s : string) : string :=
  String dquote (JSON_escape_all s ++ String dquote EmptyString).

(** [JSON.stringify({cmd: cmd})] for a string [cmd]. *)
Definition JSON_stringify_cmd (cmd : string) : string :=
  "{" ++ JSON_quote "cmd" ++ ":" ++ JSON_quote cmd ++ "}".

(** const MORE_COMMAND = '#more'; *)
Definition MORE_COMMAND : string := "#more".

(** ** Commands, futures and results *)

(** A queued command [{cmd, cb}].  The callback is the closure built in
    [sendCommand]; it is named by the promise it settles. *)
Record Command := { cmd : string; cb : nat }.

Inductive PromiseState :=
| Pending
| Fulfilled (v : JSValue)
| Rejected (e : JSError).

(** What [response.getResult()] returns. *)
Record Result := { status : JSValue; value : JSValue; needsMoreData : bool }.

(** Modelled from the spec: the Result Accumulator, class UIAutoResponse of
    './uiauto-response', which is imported by the client and is not among
    the sources.  Only its contract is used: a constructor, [addData] that
    takes a chunk, [getResult] that reports a result or needs-more-data and
    may change the buffer, and [resetBuffer]. *)
Class ResultAccumulator (A : Type) := {
  new_UIAutoResponse : A;
  addData : string -> A -> A;
  getResult : A -> Result * A;
  resetBuffer : A -> A
}.

(** What the proxy does to the outside, in order. *)
Inductive Effect :=
| SocketWrite (conn : nat) (data : string)
| SocketEnd (conn : nat)
| SocketDestroy (conn : nat)
| FsRimraf (path : string)
| FsMkdirpDirname (path : string)
| ServerListen (server : nat) (path : string)
| ServerClose (server : nat)
| CallResolve (p : nat) (v : JSValue)
| CallReject (p : nat) (e : JSError)
| StartResolve (server : nat) (v : JSValue).

(** ** The client object *)

(** The fields set by the constructor.  [onReceiveCommand] holds either
    null or the closure of the end handler of a connection; the closure is
    named by the connection it captures. *)
Record UIAutoClient := {
  curCommand : option Command;
  onReceiveCommand : option nat;
  commandQueue : list Command;
  sock : string;
  socketServer : option nat;
  hasConnected : bool;
  currentSocket : option nat
}.

(** constructor (sock = '/tmp/instruments_sock') *)
Definition constructor (sock : string) : UIAutoClient :=
  {| curCommand := None; onReceiveCommand := None; commandQueue := [];
     sock := sock; socketServer := None; hasConnected := false;
     currentSocket := None |}.

Definition default_sock : string := "/tmp/instruments_sock".

Definition set_curCommand (v : option Command) (t : UIAutoClient) :=
  {| curCommand := v; onReceiveCommand := onReceiveCommand t;
     commandQueue := commandQueue t; sock := sock t;
     socketServer := socketServer t; hasConnected := hasConnected t;
     currentSocket := currentSocket t |}.
Definition set_onReceiveCommand (v : option nat) (t : UIAutoClient) :=
  {| curCommand := curCommand t; onReceiveCommand := v;
     commandQueue := commandQueue t; sock := sock t;
     socketServer := socketServer t; hasConnected := hasConnected t;
     currentSocket := currentSocket t |}.
Definition set_commandQueue (v : list Command) (t : UIAutoClient) :=
  {| curCommand := curCommand t; onReceiveCommand := onReceiveCommand t;
     commandQueue := v; sock := sock t;
     socketServer := socketServer t; hasConnected := hasConnected t;
     currentSocket := currentSocket t |}.
Definition set_socketServer (v : option nat) (t : UIAutoClient) :=
  {| curCommand := curCommand t; onReceiveCommand := onReceiveCommand t;
     commandQueue := commandQueue t; sock := sock t;
     socketServer := v; hasConnected := hasConnected t;
     currentSocket := currentSocket t |}.
Definition set_hasConnected (v : bool) (t : UIAutoClient) :=
  {| curCommand := curCommand t; onReceiveCommand := onReceiveCommand t;
     commandQueue := commandQueue t; sock := sock t;
     socketServer := socketServer t; hasConnected := v;
     currentSocket := currentSocket t |}.
Definition set_currentSocket (v : option nat) (t : UIAutoClient) :=
  {| curCommand := curCommand t; onReceiveCommand := onReceiveCommand t;
     commandQueue := commandQueue t; sock := sock t;
     socketServer := socketServer t; hasConnected := hasConnected t;
     currentSocket := v |}.

(** ** What is observed of a run *)

(** The callbacks the client still holds: the one of the command in flight
    and the ones of the queue. *)
Definition in_play (t : UIAutoClient) : list nat :=
  cb <$> (option_list (curCommand t) ++ commandQueue t)%list.

(** How often the [resolve] of a [start] was called. *)
Fixpoint start_resolves (es : list Effect) : nat :=
  match es with
  | [] => 0
  | StartResolve _ _ :: rest => S (start_resolves rest)
  | _ :: rest => start_resolves rest
  end.

(** The frames written to the peer. *)
Fixpoint writes (es : list Effect) : list (nat * string) :=
  match es with
  | [] => []
  | SocketWrite c d :: rest => (c, d) :: writes rest
  | _ :: rest => writes rest
  end.

(** The calls of [resolve] and [reject] of the futures of [sendCommand]. *)
Fixpoint settlements (es : list Effect) : list nat :=
  match es with
  | [] => []
  | CallResolve p _ :: rest => p :: settlements rest
  | CallReject p _ :: rest => p :: settlements rest
  | _ :: rest => settlements rest
  end.

(** The continuation request for a command. *)
Definition continuation_of (k : Command) : Command :=
  {| cmd := MORE_COMMAND; cb := cb k |}.

Section Proxy.

Context {A : Type} `{ResultAccumulator A}.

(** What one call of [start] allocates: the promise it returns (its
    [resolve] is captured by the connection listener), the promise of the
    async executor, the accumulator [response] and the net.Server. *)
Record Server := {
  start_future : PromiseState;
  executor_future : PromiseState;
  response : A;
  listening : bool
}.

(** The world: the client, the futures of [sendCommand], the servers, the
    accepted connections (each with the server that accepted it), and the
    effects so far. *)
Record World := {
  this : UIAutoClient;
  promises : list PromiseState;
  servers : list Server;
  conns : list nat;
  trace : list Effect
}.

Definition upd_this (f : UIAutoClient -> UIAutoClient) (w : World) : World :=
  {| this := f (this w); promises := promises w; servers := servers w;
     conns := conns w; trace := trace w |}.
Definition set_promises (ps : list PromiseState) (w : World) : World :=
  {| this := this w; promises := ps; servers := servers w;
     conns := conns w; trace := trace w |}.
Definition set_servers (ss : list Server) (w : World) : World :=
  {| this := this w; promises := promises w; servers := ss;
     conns := conns w; trace := trace w |}.
Definition set_conns (cs : list nat) (w : World) : World :=
  {| this := this w; promises := promises w; servers := servers w;
     conns := cs; trace := trace w |}.
Definition emit (es : list Effect) (w : World) : World :=
  {| this := this w; promises := promises w; servers := servers w;
     conns := conns w; trace := trace w ++ es |}.

Definition set_response (r : A) (s : Server) : Server :=
  {| start_future := start_future s; executor_future := executor_future s;
     response := r; listening := listening s |}.
Definition set_start_future (p : PromiseState) (s : Server) : Server :=
  {| start_future := p; executor_future := executor_future s;
     response := response s; listening := listening s |}.
Definition set_listening (b : bool) (s : Server) : Server :=
  {| start_future := start_future s; executor_future := executor_future s;
     response := response s; listening := b |}.

(** A new client in an empty world. *)
Definition new_world (sock : string) : World :=
  {| this := constructor sock; promises := []; servers := []; conns := [];
     trace := [] |}.

(** A promise is settled once: settling a promise that is not pending
    changes nothing. *)
Definition settle (st : PromiseState) (old : PromiseState) : PromiseState :=
  match old with
  | Pending => st
  | _ => old
  end.

(** [resolve(v)] and [reject(e)] of the promise [p] of a [sendCommand]. *)
Definition resolve (p : nat) (v : JSValue) (w : World) : World :=
  emit [CallResolve p v]
    (set_promises (alter (settle (Fulfilled v)) p (promises w)) w).
Definition reject (p : nat) (e : JSError) (w : World) : World :=
  emit [CallReject p e]
    (set_promises (alter (settle (Rejected e)) p (promises w)) w).

(** A synchronous piece of code ends normally or throws; either way it
    leaves a world behind. *)
Inductive Completion :=
| Normal (w : World)
| Throw (e : JSError) (w : World).

Definition world_of (c : Completion) : World :=
  match c with
  | Normal w => w
  | Throw _ w => w
  end.

(** ** sendCommand *)

(** The callback [cb] of lines 45-53, for the promise [p].  In the
    failure branch [new Error(result.value)] is evaluated first, and when
    it throws, [reject] is not called. *)
Definition cb_call (p : nat) (result : Result) (w : World) : Completion :=
  if strict_eq_zero (status result)
  then Normal (resolve p (value result) w)
  else if Error_throws (value result)
       then Throw (TypeError "Cannot convert object to primitive value") w
       else Normal (reject p (Error (value result)) w).

(** When the callback throws, and the world it leaves when it returns. *)
Definition cb_throws (result : Result) : bool :=
  negb (strict_eq_zero (status result)) && Error_throws (value result).

Definition cb_returns (p : nat) (result : Result) (w : World) : World :=
  if strict_eq_zero (status result)
  then resolve p (value result) w
  else reject p (Error (value result)) w.

(** The closure [onReceiveCommand] of lines 113-119, for the connection
    [conn].  [shift()] on an empty array gives undefined, and reading
    [.cmd] of it throws. *)
Definition onReceiveCommand_body (conn : nat) (w : World) : Completion :=
  let w1 := upd_this (set_onReceiveCommand None) w in
  match commandQueue (this w1) with
  | [] =>
      Throw (TypeError "Cannot read property 'cmd' of undefined")
            (upd_this (set_curCommand None) w1)
  | k :: rest =>
      Normal
        (emit [SocketWrite conn (JSON_stringify_cmd (cmd k)); SocketEnd conn]
           (upd_this (fun t => set_curCommand (Some k) (set_commandQueue rest t)) w1))
  end.

(** The executor of the promise of [sendCommand] (lines 45-57). *)
Definition sendCommand_executor (c : string) (p : nat) (w : World) : Completion :=
  let w1 :=
    upd_this (fun t => set_commandQueue (commandQueue t ++ [{| cmd := c; cb := p |}]) t) w in
  match onReceiveCommand (this w1) with
  | Some conn => onReceiveCommand_body conn w1
  | None => Normal w1
  end.

(** [sendCommand(cmd)]: a new promise, whose executor runs at once; an
    exception of the executor rejects the promise.  Returns the promise. *)
Definition sendCommand (c : string) (w : World) : nat * World :=
  let p := length (promises w) in
  let w1 := set_promises (promises w ++ [Pending]) w in
  match sendCommand_executor c p w1 with
  | Normal w2 => (p, w2)
  | Throw e w2 =>
      (p, set_promises (alter (settle (Rejected e)) p (promises w2)) w2)
  end.

(** ** The connection listener of start *)

(** The listener of [net.createServer] up to the registration of the
    handlers (lines 70-80), for the server [server] and the new connection
    [conn]: [resolve] is the one of the promise that this [start] returned. *)
Definition on_connection (server conn : nat) (w : World) : World :=
  let w1 :=
    if hasConnected (this w) then w
    else
      emit [StartResolve server (JBool true)]
        (set_servers
           (alter (fun s => set_start_future
                              (settle (Fulfilled (JBool true)) (start_future s)) s)
                  server (servers w))
           (upd_this (set_hasConnected true) w)) in
  upd_this (set_currentSocket (Some conn)) w1.

(** conn.on('close', ...) *)
Definition on_close (w : World) : World :=
  upd_this (set_currentSocket None) w.

(** The data callback of the pipe (lines 87-90), on the accumulator. *)
Definition on_data (data : string) (r : A) : A := addData data r.

(** First half of the end handler (lines 96-110): settle the exchange
    that was under way.  [r] is the accumulator of the server.  When the
    callback throws, the handler ends there: the command in flight is not
    cleared. *)
Definition end_resolve_prior (r : A) (w : World) : A * Completion :=
  match curCommand (this w) with
  | Some cur =>
      let '(result, r1) := getResult r in
      if needsMoreData result then
        (r1, Normal (upd_this (fun t =>
               set_commandQueue
                 ({| cmd := MORE_COMMAND; cb := cb cur |} :: commandQueue t) t) w))
      else
        match cb_call (cb cur) result w with
        | Normal w1 => (r1, Normal (upd_this (set_curCommand None) w1))
        | Throw e w1 => (r1, Throw e w1)
        end
  | None => (resetBuffer r, Normal w)
  end.

(** Second half of the end handler (lines 112-124): send the next command
    or leave the closure for [sendCommand]. *)
Definition end_dispatch_next (conn : nat) (w : World) : Completion :=
  match commandQueue (this w) with
  | _ :: _ => onReceiveCommand_body conn w
  | [] => Normal (upd_this (set_onReceiveCommand (Some conn)) w)
  end.

(** conn.on('end', ...) *)
Definition on_end (conn : nat) (r : A) (w : World) : A * Completion :=
  match end_resolve_prior r w with
  | (r1, Normal w1) => (r1, end_dispatch_next conn w1)
  | (r1, Throw e w1) => (r1, Throw e w1)
  end.

(** ** start *)

(** [start()], with the outcomes of [rimraf] and [mkdirp] (an error, or
    none).  The executor takes [resolve] only; it is an async function, so
    an error of an awaited call rejects the promise of the executor.
    Returns the server, which also names the promise that [start] returns. *)
Definition start (rimraf_err mkdirp_err : option JSError) (w : World) : nat * World :=
  let sv := length (servers w) in
  let mk ex l :=
    {| start_future := Pending; executor_future := ex;
       response := new_UIAutoResponse; listening := l |} in
  let w1 := upd_this (set_socketServer (Some sv)) w in
  let w2 := emit [FsRimraf (sock (this w))] w1 in
  match rimraf_err with
  | Some e => (sv, set_servers (servers w ++ [mk (Rejected e) false]) w2)
  | None =>
      let w3 := emit [FsMkdirpDirname (sock (this w))] w2 in
      match mkdirp_err with
      | Some e => (sv, set_servers (servers w ++ [mk (Rejected e) false]) w3)
      | None =>
          (sv, emit [ServerListen sv (sock (this w))]
                 (set_servers (servers w ++ [mk (Fulfilled JUndefined) true]) w3))
      end
  end.

(** ** shutdown *)

(** [shutdown()], with the outcome of closing the server.  Returns the
    world and the state of the promise of the call. *)
Definition shutdown (close_err : option JSError) (w : World) : World * PromiseState :=
  let w1 := upd_this (fun t => set_onReceiveCommand None (set_curCommand None t)) w in
  let w2 :=
    match currentSocket (this w1) with
    | Some c =>
        upd_this (set_currentSocket None) (emit [SocketEnd c; SocketDestroy c] w1)
    | None => w1
    end in
  match socketServer (this w2) with
  | Some sv =>
      let w3 := emit [ServerClose sv] w2 in
      match close_err with
      | Some e => (w3, Rejected e)
      | None =>
          (upd_this (set_socketServer None)
             (set_servers (alter (set_listening false) sv (servers w3)) w3),
           Fulfilled JUndefined)
      end
  | None => (w2, Fulfilled JUndefined)
  end.

(** [safeShutdown()] *)
Definition safeShutdown (close_err : option JSError) (w : World) : World * PromiseState :=
  (fst (shutdown close_err w), Fulfilled JUndefined).

(** ** Events *)

Inductive Event :=
| CallSendCommand (c : string)
| CallStart (rimraf_err mkdirp_err : option JSError)
| CallShutdown (close_err : option JSError)
| CallSafeShutdown (close_err : option JSError)
| EvConnection (server : nat)
| EvData (conn : nat) (chunk : string)
| EvEnd (conn : nat)
| EvClose (conn : nat).

(** One event.  [None] when the event cannot occur (a connection on a
    server that does not listen, an event of a connection that was never
    accepted) or when a handler throws, which ends the process. *)
Definition exec (ev : Event) (w : World) : option World :=
  match ev with
  | CallSendCommand c => Some (snd (sendCommand c w))
  | CallStart re me => Some (snd (start re me w))
  | CallShutdown ce => Some (fst (shutdown ce w))
  | CallSafeShutdown ce => Some (fst (safeShutdown ce w))
  | EvConnection sv =>
      s ← servers w !! sv;
      if listening s
      then Some (on_connection sv (length (conns w))
                   (set_conns (conns w ++ [sv]) w))
      else None
  | EvData c chunk =>
      sv ← conns w !! c;
      Some (set_servers (alter (fun s => set_response (on_data chunk (response s)) s)
                           sv (servers w)) w)
  | EvEnd c =>
      sv ← conns w !! c;
      s ← servers w !! sv;
      match on_end c (response s) w with
      | (r1, Normal w1) =>
          Some (set_servers (alter (set_response r1) sv (servers w1)) w1)
      | (_, Throw _ _) => None
      end
  | EvClose c =>
      _ ← conns w !! c;
      Some (on_close w)
  end.

Fixpoint run (evs : list Event) (w : World) : option World :=
  match evs with
  | [] => Some w
  | ev :: rest => w1 ← exec ev w; run rest w1
  end.

Inductive reachable (w0 : World) : World -> Prop :=
| reachable_refl : reachable w0 w0
| reachable_step w ev w' :
    reachable w0 w -> exec ev w = Some w' -> reachable w0 w'.

(** ** The invariant of the reachable worlds *)

Record Inv (w : World) : Prop := {
  inv_idle : forall c, onReceiveCommand (this w) = Some c ->
             curCommand (this w) = None /\ commandQueue (this w) = [];
  inv_nodup : NoDup (in_play (this w));
  inv_pending : forall p, p ∈ in_play (this w) -> promises w !! p = Some Pending;
  inv_futures : forall sv s, servers w !! sv = Some s ->
                start_future s = Pending \/
                (hasConnected (this w) = true /\
                 start_future s = Fulfilled (JBool true));
  inv_resolves : start_resolves (trace w) =
                 if hasConnected (this w) then 1 else 0;
  inv_conns : forall c sv, conns w !! c = Some sv -> sv < length (servers w)
}.

End Proxy.

Arguments Server A : clear implicits.
Arguments World A : clear implicits.
Arguments Completion A : clear implicits.

(** ** An accumulator to run the model on *)

(** Modelled from the spec: a Result Accumulator that buffers the bytes it
    is given and recognises a complete frame by a table from frames to
    their parsed [{status, value}].  As long as the buffer is no complete
    frame, [getResult] reports needs-more-data and keeps the buffer; a
    complete frame is consumed. *)
Module Scripted.

Record UIAutoResponse := { bufferedData : string }.

Definition q : string := String dquote EmptyString.

(** [<tag>,{"status":<status>,"value":<value>}] *)
Definition frame (status value : string) : string :=
  "2,{" ++ q ++ "status" ++ q ++ ":" ++ status ++ ","
        ++ q ++ "value" ++ q ++ ":" ++ value ++ "}".

Definition known_frames : list (string * (JSValue * JSValue)) :=
  [ (frame "0" (q ++ "abc" ++ q), (JNum 0, JString "abc"));
    (frame "1" (q ++ "no such element" ++ q), (JNum 1, JString "no such element"));
    (frame "1" "null", (JNum 1, JNull));
    (frame "7" "13", (JNum 7, JNum 13));
    (frame "1" ("{" ++ q ++ "toString" ++ q ++ ":1}"),
     (JNum 1, JObject [("toString", JNum 1)])) ].

Fixpoint parse_frame (table : list (string * (JSValue * JSValue))) (buf : string)
  : option (JSValue * JSValue) :=
  match table with
  | [] => None
  | (f, r) :: rest => if String.eqb f buf then Some r else parse_frame rest buf
  end.

#[global] Instance accumulator : ResultAccumulator UIAutoResponse := {
  new_UIAutoResponse := {| bufferedData := "" |};
  addData chunk r := {| bufferedData := bufferedData r ++ chunk |};
  getResult r :=
    match parse_frame known_frames (bufferedData r) with
    | Some (st, v) =>
        ({| status := st; value := v; needsMoreData := false |},
         {| bufferedData := "" |})
    | None =>
        ({| status := JUndefined; value := JUndefined; needsMoreData := true |}, r)
    end;
  resetBuffer _ := {| bufferedData := "" |}
}.

End Scripted.

(** ** Concrete runs *)

(** The world that a run of events leaves, from a new client with the
    default socket path and the scripted accumulator. *)
Definition world_after (evs : list Event) : World Scripted.UIAutoResponse :=
  default (new_world default_sock) (run evs (new_world default_sock)).

Definition frame_abc : string :=
  Scripted.frame "0" (Scripted.q ++ "abc" ++ Scripted.q)%string.
Definition frame_null_error : string := Scripted.frame "1" "null".
Definition frame_no_such_element : string :=
  Scripted.frame "1" (Scripted.q ++ "no such element" ++ Scripted.q).
Definition frame_toString_error : string :=
  Scripted.frame "1" ("{" ++ Scripted.q ++ "toString" ++ Scripted.q ++ ":1}").

(** start, one command submitted, the first connection accepted. *)
Definition connected_world : World Scripted.UIAutoResponse :=
  world_after [CallStart None None; CallSendCommand "getSession";
               EvConnection 0].

(** The command is in flight and the whole frame [frame] of its result has
    arrived on a second connection. *)
Definition answered_world (frame : string) : World Scripted.UIAutoResponse :=
  world_after [CallStart None None; CallSendCommand "getSession";
               EvConnection 0; EvEnd 0; EvClose 0;
               EvConnection 0; EvData 1 frame].

(** Two commands submitted; the first is in flight and only the first
    bytes of its result have arrived. *)
Definition partial_world : World Scripted.UIAutoResponse :=
  world_after [CallStart None None; CallSendCommand "getSession";
               CallSendCommand "next";
               EvConnection 0; EvEnd 0; EvClose 0;
               EvConnection 0; EvData 1 "2,{"].

(** A client that is started. *)
Definition started_world : World Scripted.UIAutoResponse :=
  world_after [CallStart None None].

(** A client that is started and connected, with nothing submitted. *)
Definition idle_world : World Scripted.UIAutoResponse :=
  world_after [CallStart None None; EvConnection 0].

(** The error of a file-system call that is refused. *)
Definition EACCES : JSError := SystemError "EACCES: permission denied".

(** A client that was started, accepted a connection, was shut down twice
    and started again. *)
Definition restarted_world : World Scripted.UIAutoResponse :=
  world_after [CallStart None None; EvConnection 0; EvEnd 0; EvClose 0;
               CallShutdown None; CallShutdown None; CallStart None None].

(** The first of two commands has been answered and the second sent. *)
Definition settled_world : World Scripted.UIAutoResponse :=
  world_after [CallStart None None; CallSendCommand "getSession";
               CallSendCommand "next";
               EvConnection 0; EvEnd 0; EvClose 0;
               EvConnection 0; EvData 1 frame_abc; EvEnd 1].

(** One command submitted and sent, its result still to come. *)
Definition in_flight_world : World Scripted.UIAutoResponse :=
  world_after [CallStart None None; CallSendCommand "getSession";
               EvConnection 0; EvEnd 0].

(** The peer has connected and ended its side, and nothing is submitted:
    the closure of connection 0 is stored. *)
Definition waiting_world : World Scripted.UIAutoResponse :=
  world_after [CallStart None None; EvConnection 0; EvEnd 0].

(** Two connections are open, the second one being the current socket. *)
Definition two_connections_world : World Scripted.UIAutoResponse :=
  world_after [CallStart None None; EvConnection 0; EvConnection 0].

(** What is left of [frame_abc] after its first three bytes. *)
Definition frame_abc_tail : string :=
  String.substring 3 (String.length frame_abc - 3) frame_abc.

(** The events of the run that leads to [settled_world]. *)
Definition settled_run : list Event :=
  [CallStart None None; CallSendCommand "getSession"; CallSendCommand "next";
   EvConnection 0; EvEnd 0; EvClose 0;
   EvConnection 0; EvData 1 frame_abc; EvEnd 1].

(** A command is queued and two connections are open, the second one
    being the current socket. *)
Definition two_connections_queued_world : World Scripted.UIAutoResponse :=
  world_after [CallStart None None; CallSendCommand "getSession";
               EvConnection 0; EvConnection 0].

(** The bytes of two frames, written out. *)
Definition frame_of_getSession : string :=
  String "{" (String dquote ("cmd" ++ String dquote (":" ++ String dquote
    ("getSession" ++ String dquote "}")))).

(** An identifier with a quote, a backslash and a line feed, and the
    bytes of its frame. *)
Definition escaped_identifier : string :=
  "a" ++ String dquote ("b" ++ String backslash ("c" ++
    String (ascii_of_nat 10) EmptyString)).
Definition frame_of_escaped_identifier : string :=
  String "{" (String dquote ("cmd" ++ String dquote (":" ++ String dquote
    ("a" ++ String backslash (String dquote ("b" ++ String backslash
       (String backslash ("c" ++ String backslash ("n" ++
          String dquote "}"))))))))).

(** ** Histories *)

(** What the trace and the futures record of the callbacks: the callbacks
    called so far, followed by the callbacks still held, are in increasing
    order; all of them belong to futures that exist; and a future is
    pending exactly as long as neither resolve nor reject was called for
    it. *)
Record Hist {A : Type} (w : World A) : Prop := {
  hist_sorted :
    StronglySorted lt (settlements (trace w) ++ in_play (this w))%list;
  hist_bound : forall p,
    p ∈ (settlements (trace w) ++ in_play (this w))%list ->
    p < length (promises w);
  hist_settled : forall p st,
    promises w !! p = Some st ->
    (st = Pending <-> p ∉ settlements (trace w))
}.

(** The events of the sockets that do not end an exchange. *)
Definition quiet (ev : Event) : bool :=
  match ev with
  | EvConnection _ | EvData _ _ | EvClose _ => true
  | _ => false
  end.

(** The identifiers passed to [sendCommand] in a run. *)
Definition submitted (evs : list Event) : list string :=
  omap (fun ev => match ev with
                  | CallSendCommand c => Some c
                  | _ => None
                  end) evs.

(** A trace in which every write is the frame of a command and is followed
    at once by the end of the write side of the same connection. *)
Inductive framed : list Effect -> Prop :=
| framed_nil : framed []
| framed_write conn id rest :
    framed rest ->
    framed (SocketWrite conn (JSON_stringify_cmd id) :: SocketEnd conn :: rest)
| framed_other e rest :
    (forall conn d, e <> SocketWrite conn d) ->
    framed rest ->
    framed (e :: rest).

(** The identifiers the proxy may send after the commands [ids] were
    submitted: those, and the continuation request. *)
Definition known_command (ids : list string) (c : string) : Prop :=
  c = MORE_COMMAND \/ c ∈ ids.

(** Every command held and every frame written so far comes from [ids]. *)
Record Known {A : Type} (ids : list string) (w : World A) : Prop := {
  known_held : forall k,
    k ∈ (option_list (curCommand (this w)) ++ commandQueue (this w))%list ->
    known_command ids (cmd k);
  known_written : forall conn d,
    (conn, d) ∈ writes (trace w) ->
    exists c, known_command ids c /\ d = JSON_stringify_cmd c
}.

(** ** Reading a frame back *)

(** The inverse of [JSON_escape_all], as the peer applies it when it
    parses the frame: the text of a JSON string literal up to its closing
    quote, and what follows the quote.  It serves to show that a frame
    determines its command. *)
Definition hex_value (a : ascii) : option N :=
  let n := N_of_ascii a in
  if ((48 <=? n) && (n <=? 57))%N then Some (n - 48)%N
  else if ((97 <=? n) && (n <=? 102))%N then Some (n - 87)%N
  else None.

Definition simple_escape (b : ascii) : option ascii :=
  let n := N_of_ascii b in
  if (n =? 34)%N then Some dquote
  else if (n =? 92)%N then Some backslash
  else if (n =? 98)%N then Some (ascii_of_N 8)
  else if (n =? 102)%N then Some (ascii_of_N 12)
  else if (n =? 110)%N then Some (ascii_of_N 10)
  else if (n =? 114)%N then Some (ascii_of_N 13)
  else if (n =? 116)%N then Some (ascii_of_N 9)
  else None.

Definition push (c : ascii) (r : option (string * string)) : option (string * string) :=
  match r with
  | Some (t, u) => Some (String c t, u)
  | None => None
  end.

Fixpoint JSON_unescape_all (s : string) : option (string * string) :=
  match s with
  | EmptyString => None
  | String a rest =>
      if (N_of_ascii a =? 34)%N then Some (EmptyString, rest)
      else if (N_of_ascii a =? 92)%N then
        match rest with
        | String b rest1 =>
            if (N_of_ascii b =? 117)%N then
              match rest1 with
              | String h1 (String h2 (String h3 (String h4 rest5))) =>
                  match hex_value h1, hex_value h2, hex_value h3, hex_value h4 with
                  | Some 0%N, Some 0%N, Some x, Some y =>
                      push (ascii_of_N (16 * x + y)) (JSON_unescape_all rest5)
                  | _, _, _, _ => None
                  end
              | _ => None
              end
            else
              match simple_escape b with
              | Some c => push c (JSON_unescape_all rest1)
              | None => None
              end
        | EmptyString => None
        end
      else push a (JSON_unescape_all rest)
  end.

(** ** Proof tactics *)

(** Name the effects a step adds to the trace. *)
Ltac extend_trace :=
  eexists; split; [first [reflexivity | symmetry; apply app_nil_r]|].

(** Close an equation between closed terms by evaluation. *)
Ltac by_computation := vm_compute; reflexivity.

(** Show that a block of effects is well framed. *)
Ltac framed_block :=
  repeat first
    [ apply framed_nil
    | apply framed_write
    | apply framed_other; [intros ? ?; discriminate|] ].

(** ** Invariants of the reachable worlds *)

Open Scope list_scope.

Section Invariants.

Context {A : Type} `{ResultAccumulator A}.

Implicit Types (w : World A) (t : UIAutoClient) (k : Command).

Lemma start_resolves_app es1 es2 :
  start_resolves (es1 ++ es2) = start_resolves es1 + start_resolves es2.
Proof.
  induction es1 as [|e es1 IH]; simpl; [done|].
  destruct e; simpl; rewrite IH; done.
Qed.

Lemma writes_app es1 es2 : writes (es1 ++ es2) = writes es1 ++ writes es2.
Proof.
  induction es1 as [|e es1 IH]; simpl; [done|].
  destruct e; simpl; rewrite IH; done.
Qed.

Lemma settlements_app es1 es2 :
  settlements (es1 ++ es2) = settlements es1 ++ settlements es2.
Proof.
  induction es1 as [|e es1 IH]; simpl; [done|].
  destruct e; simpl; rewrite IH; done.
Qed.

Lemma Inv_new_world sock : Inv (new_world (A := A) sock).
Proof.
  split; simpl; try done.
  - unfold in_play; simpl. constructor.
  - unfold in_play; simpl. intros p Hp. inversion Hp.
Qed.

(** What [cb_call] changes, whatever the result. *)
Lemma cb_call_cases p result w :
  cb_call p result w =
  if cb_throws result
  then Throw (TypeError "Cannot convert object to primitive value") w
  else Normal (cb_returns p result w).
Proof.
  unfold cb_call, cb_throws, cb_returns.
  destruct (strict_eq_zero _); simpl; [done|]. by destruct (Error_throws _).
Qed.

Lemma cb_returns_this p result w : this (cb_returns p result w) = this w.
Proof. unfold cb_returns, resolve, reject. by destruct (strict_eq_zero _). Qed.

Lemma cb_returns_servers p result w : servers (cb_returns p result w) = servers w.
Proof. unfold cb_returns, resolve, reject. by destruct (strict_eq_zero _). Qed.

Lemma cb_returns_conns p result w : conns (cb_returns p result w) = conns w.
Proof. unfold cb_returns, resolve, reject. by destruct (strict_eq_zero _). Qed.

Lemma cb_returns_promises p result w :
  promises (cb_returns p result w) =
  alter (settle (if strict_eq_zero (status result)
                 then Fulfilled (value result)
                 else Rejected (Error (value result)))) p (promises w).
Proof. unfold cb_returns, resolve, reject. by destruct (strict_eq_zero _). Qed.

Lemma cb_returns_trace p result w :
  trace (cb_returns p result w) =
  trace w ++ [if strict_eq_zero (status result)
              then CallResolve p (value result)
              else CallReject p (Error (value result))].
Proof. unfold cb_returns, resolve, reject. by destruct (strict_eq_zero _). Qed.

Lemma in_play_lt w p : Inv w -> p ∈ in_play (this w) -> p < length (promises w).
Proof. intros HI Hp. eapply lookup_lt_Some, inv_pending; eauto. Qed.

Lemma Inv_sendCommand c w : Inv w -> Inv (snd (sendCommand c w)).
Proof.
  intros HI. unfold sendCommand, sendCommand_executor. simpl.
  destruct (onReceiveCommand (this w)) as [conn|] eqn:Hhook.
  - destruct (inv_idle w HI conn Hhook) as [Hcur Hq].
    unfold onReceiveCommand_body; simpl. rewrite Hq; simpl.
    split; simpl; try done.
    + unfold in_play; simpl. apply NoDup_singleton.
    + unfold in_play; simpl. intros p Hp. apply list_elem_of_singleton in Hp as ->.
      by rewrite lookup_app_r, Nat.sub_diag.
    + apply (inv_futures w HI).
    + rewrite start_resolves_app; simpl. rewrite (inv_resolves w HI). lia.
    + apply (inv_conns w HI).
  - split; simpl.
    + by rewrite Hhook.
    + unfold in_play; simpl. rewrite app_assoc, fmap_app; simpl.
      apply NoDup_app. split; [apply (inv_nodup w HI)|]. split; [|apply NoDup_singleton].
      intros p Hp Hp'. apply list_elem_of_singleton in Hp' as ->.
      apply (in_play_lt w) in Hp; [lia|done].
    + unfold in_play; simpl. rewrite app_assoc, fmap_app; simpl.
      intros p [Hp|Hp]%elem_of_app.
      * rewrite lookup_app_l by (by apply in_play_lt). by apply (inv_pending w HI).
      * apply list_elem_of_singleton in Hp as ->.
        by rewrite lookup_app_r, Nat.sub_diag.
    + apply (inv_futures w HI).
    + apply (inv_resolves w HI).
    + apply (inv_conns w HI).
Qed.

Lemma Inv_start re me w : Inv w -> Inv (snd (start re me w)).
Proof.
  intros HI.
  assert (Hfut : forall ex l sv s,
    (servers w ++ [{| start_future := Pending; executor_future := ex;
                      response := new_UIAutoResponse; listening := l |}]) !! sv = Some s ->
    start_future s = Pending \/
    (hasConnected (this w) = true /\ start_future s = Fulfilled (JBool true))).
  { intros ex l sv s [Hs|[_ Hs]]%lookup_app_Some.
    - by apply (inv_futures w HI sv).
    - destruct (sv - length (servers w)); simplify_eq/=; auto. }
  assert (Hconn : forall x c sv, conns w !! c = Some sv ->
    sv < length (servers w ++ [x])).
  { intros x c sv Hc. apply (inv_conns w HI) in Hc. rewrite length_app. lia. }
  unfold start.
  destruct re as [e|]; [|destruct me as [e|]]; split; simpl;
    try apply (inv_idle w HI); try apply (inv_nodup w HI);
    try apply (inv_pending w HI); try apply Hfut; try apply Hconn;
    rewrite ?start_resolves_app; simpl; rewrite (inv_resolves w HI); lia.
Qed.

Lemma in_play_queue_subset t p :
  p ∈ (cb <$> commandQueue t) -> p ∈ in_play t.
Proof. unfold in_play. rewrite fmap_app, elem_of_app. auto. Qed.

Lemma Inv_shutdown ce w : Inv w -> Inv (fst (shutdown ce w)).
Proof.
  intros HI.
  assert (Hnd : NoDup (cb <$> commandQueue (this w))).
  { pose proof (inv_nodup w HI) as Hn. unfold in_play in Hn.
    rewrite fmap_app in Hn. by apply NoDup_app in Hn as (_ & _ & Hn). }
  assert (Hfut : forall x sv s,
    alter (set_listening false) x (servers w) !! sv = Some s ->
    start_future s = Pending \/
    (hasConnected (this w) = true /\ start_future s = Fulfilled (JBool true))).
  { intros x sv s Hs. destruct (decide (x = sv)) as [->|Hne].
    - rewrite list_lookup_alter_eq in Hs.
      destruct (servers w !! sv) as [s0|] eqn:Hs0; simplify_eq/=.
      by apply (inv_futures w HI sv). 
    - rewrite list_lookup_alter_ne in Hs by done. by apply (inv_futures w HI sv). }
  unfold shutdown; simpl.
  destruct (currentSocket (this w)) as [c|]; simpl;
    (destruct (socketServer (this w)) as [sv|]; simpl; [destruct ce as [e|]; simpl|]);
    split; simpl; try done; unfold in_play; simpl;
    try (intros p Hp; apply (inv_pending w HI), in_play_queue_subset, Hp);
    try apply (inv_futures w HI); try apply Hfut;
    try apply (inv_conns w HI);
    try (intros c' sv' Hc; rewrite length_alter; by apply (inv_conns w HI) in Hc);
    rewrite ?start_resolves_app; simpl; rewrite (inv_resolves w HI); lia.
Qed.

Lemma Inv_on_close w : Inv w -> Inv (on_close w).
Proof. intros [? ? ? ? ? ?]. by split. Qed.

Lemma Inv_alter_response (f : Server A -> A) sv w :
  Inv w -> Inv (set_servers (alter (fun s => set_response (f s) s) sv (servers w)) w).
Proof.
  intros HI. split; simpl; try apply HI.
  - intros x s Hs. destruct (decide (sv = x)) as [->|Hne].
    + rewrite list_lookup_alter_eq in Hs.
      destruct (servers w !! x) as [s0|] eqn:Hs0; simplify_eq/=.
      by apply (inv_futures w HI x).
    + rewrite list_lookup_alter_ne in Hs by done. by apply (inv_futures w HI x).
  - intros c x Hc. rewrite length_alter. by apply (inv_conns w HI) in Hc.
Qed.

Lemma Inv_on_connection sv w :
  Inv w -> sv < length (servers w) ->
  Inv (on_connection sv (length (conns w)) (set_conns (conns w ++ [sv]) w)).
Proof.
  intros HI Hsv. unfold on_connection; simpl.
  assert (Hconn : forall n c x, (conns w ++ [sv]) !! c = Some x -> n = length (servers w) -> x < n).
  { intros n c x [Hc|[_ Hc]]%lookup_app_Some ->.
    - by apply (inv_conns w HI) in Hc.
    - destruct (c - length (conns w)); by simplify_eq/=. }
  destruct (hasConnected (this w)) eqn:Hhc; split; simpl;
    try apply (inv_idle w HI); try apply (inv_nodup w HI);
    try apply (inv_pending w HI).
  - intros x s Hs. destruct (inv_futures w HI x s Hs) as [?|[_ ?]]; auto.
  - by rewrite (inv_resolves w HI), Hhc.
  - intros c x Hc. by eapply Hconn.
  - intros x s Hs. destruct (decide (sv = x)) as [->|Hne].
    + rewrite list_lookup_alter_eq in Hs.
      destruct (servers w !! x) as [s0|] eqn:Hs0; simplify_eq/=.
      destruct (inv_futures w HI x s0 Hs0) as [->|[? _]]; [|congruence].
      by right.
    + rewrite list_lookup_alter_ne in Hs by done.
      destruct (inv_futures w HI x s Hs) as [?|[? _]]; [by left|congruence].
  - rewrite start_resolves_app; simpl. rewrite (inv_resolves w HI), Hhc. lia.
  - intros c x Hc. rewrite length_alter. by eapply Hconn.
Qed.

(** The dispatch closure keeps the invariant when the queue has a head and
    that head is either new or the continuation of the command it
    replaces. *)
Lemma Inv_dispatch conn w k rest w' :
  commandQueue (this w) = k :: rest ->
  NoDup (cb <$> (k :: rest)) ->
  (forall p, p ∈ (cb <$> (k :: rest)) -> promises w !! p = Some Pending) ->
  (forall sv s, servers w !! sv = Some s ->
     start_future s = Pending \/
     (hasConnected (this w) = true /\ start_future s = Fulfilled (JBool true))) ->
  start_resolves (trace w) = (if hasConnected (this w) then 1 else 0) ->
  (forall c sv, conns w !! c = Some sv -> sv < length (servers w)) ->
  onReceiveCommand_body conn w = Normal w' -> Inv w'.
Proof.
  intros Hq Hnd Hpend Hfut Hres Hconn. unfold onReceiveCommand_body; simpl.
  rewrite Hq. intros [= <-]. split; simpl; try done.
  rewrite start_resolves_app; simpl. rewrite Hres. lia.
Qed.

Lemma Inv_on_end conn r w r1 w1 :
  Inv w -> on_end conn r w = (r1, Normal w1) -> Inv w1.
Proof.
  intros HI. unfold on_end, end_resolve_prior.
  pose proof (inv_nodup w HI) as Hnd. pose proof (inv_pending w HI) as Hpend.
  unfold in_play in Hnd, Hpend.
  destruct (curCommand (this w)) as [cur|] eqn:Hcur; simpl in Hnd, Hpend.
  - destruct (getResult r) as [result r2].
    destruct (needsMoreData result).
    + unfold end_dispatch_next; cbn -[onReceiveCommand_body].
      intros [<- Hw1]%pair_equal_spec.
      eapply Inv_dispatch; [| | | | | |exact Hw1]; simpl; try done; try apply HI.
    + rewrite cb_call_cases. destruct (cb_throws result); [by intros [= _ ?]|].
      unfold end_dispatch_next; cbn -[onReceiveCommand_body].
      rewrite cb_returns_this; cbn -[onReceiveCommand_body].
      apply NoDup_cons in Hnd as [Hnotin Hnd].
      assert (Hpend' : forall p, p ∈ (cb <$> commandQueue (this w)) ->
                promises (cb_returns (cb cur) result w) !! p = Some Pending).
      { intros p Hp. rewrite cb_returns_promises.
        rewrite list_lookup_alter_ne by (by intros <-).
        apply Hpend. by right. }
      destruct (commandQueue (this w)) as [|k rest] eqn:Hq.
      * intros [= <- <-]. split; simpl; rewrite ?cb_returns_this, ?cb_returns_servers,
          ?cb_returns_conns, ?cb_returns_trace, ?start_resolves_app; simpl;
          try done; try apply HI.
        -- unfold in_play; simpl. rewrite Hq. constructor.
        -- unfold in_play; simpl. rewrite Hq. intros p Hp. inversion Hp.
        -- rewrite (inv_resolves w HI).
           destruct (strict_eq_zero _); simpl; lia.
      * intros [<- Hw1]%pair_equal_spec.
        eapply Inv_dispatch; [| | | | | |exact Hw1]; simpl;
          rewrite ?cb_returns_this, ?cb_returns_servers, ?cb_returns_conns,
            ?cb_returns_trace, ?start_resolves_app; simpl; try done; try apply HI.
        rewrite (inv_resolves w HI). destruct (strict_eq_zero _); simpl; lia.
  - unfold end_dispatch_next.
    destruct (commandQueue (this w)) as [|k rest] eqn:Hq.
    + intros [= <- <-]. split; simpl; try done; try apply HI.
    + intros [<- Hw1]%pair_equal_spec.
      eapply Inv_dispatch; [| | | | | |exact Hw1]; simpl; try done; try apply HI.
Qed.

Theorem exec_Inv ev w w' : Inv w -> exec ev w = Some w' -> Inv w'.
Proof.
  intros HI. destruct ev as [c|re me|ce|ce|sv|c chunk|c|c]; simpl.
  - intros [= <-]. by apply Inv_sendCommand.
  - intros [= <-]. by apply Inv_start.
  - intros [= <-]. by apply Inv_shutdown.
  - intros [= <-]. by apply Inv_shutdown.
  - destruct (servers w !! sv) as [s|] eqn:Hs; simpl; [|done].
    destruct (listening s); [|done]. intros [= <-].
    apply Inv_on_connection; [done|]. by eapply lookup_lt_Some.
  - destruct (conns w !! c) as [sv|]; simpl; [|done]. intros [= <-].
    by apply (Inv_alter_response (fun s => on_data chunk (response s))).
  - destruct (conns w !! c) as [sv|]; simpl; [|done].
    destruct (servers w !! sv) as [s|]; simpl; [|done].
    destruct (on_end c (response s) w) as [r1 [w1|e w1]] eqn:Hend; [|done].
    intros [= <-]. apply (Inv_alter_response (fun _ => r1)).
    by eapply Inv_on_end.
  - destruct (conns w !! c) as [sv|]; simpl; [|done]. intros [= <-].
    by apply Inv_on_close.
Qed.

Theorem reachable_Inv sock w : reachable (new_world sock) w -> Inv w.
Proof.
  induction 1 as [|w ev w' _ IH Hex]; [apply Inv_new_world|by eapply exec_Inv].
Qed.

(** The end handler touches neither the servers nor the connections nor
    the connection fields of the client. *)
Lemma on_end_frame conn r w r1 w1 :
  on_end conn r w = (r1, Normal w1) ->
  servers w1 = servers w /\ conns w1 = conns w /\
  hasConnected (this w1) = hasConnected (this w) /\
  socketServer (this w1) = socketServer (this w) /\
  currentSocket (this w1) = currentSocket (this w) /\
  sock (this w1) = sock (this w).
Proof.
  unfold on_end, end_resolve_prior, end_dispatch_next, onReceiveCommand_body.
  intros Heq.
  destruct (curCommand (this w)) as [cur|].
  - destruct (getResult r) as [result r2].
    destruct (needsMoreData result); simpl in Heq.
    + apply (f_equal (fun x => world_of (snd x))) in Heq. simpl in Heq. by subst w1.
    + rewrite cb_call_cases in Heq.
      destruct (cb_throws result); simpl in Heq; [discriminate Heq|].
      rewrite cb_returns_this in Heq.
      destruct (commandQueue (this w));
        apply (f_equal (fun x => world_of (snd x))) in Heq; simpl in Heq;
        subst w1; simpl;
        by rewrite cb_returns_this, cb_returns_servers, cb_returns_conns.
  - simpl in Heq. destruct (commandQueue (this w));
      apply (f_equal (fun x => world_of (snd x))) in Heq; simpl in Heq;
      subst w1; by simpl.
Qed.

(** What a step can do to a server that exists: its accumulator may
    change, it may stop listening, and its start future changes only when
    the server accepts the first connection of the client. *)
Lemma exec_server ev w w' sv s :
  exec ev w = Some w' ->
  servers w !! sv = Some s ->
  exists s',
    servers w' !! sv = Some s' /\
    executor_future s' = executor_future s /\
    (listening s' = true -> listening s = true) /\
    (start_future s' = start_future s \/
     (ev = EvConnection sv /\ hasConnected (this w) = false /\
      listening s = true /\
      start_future s' = settle (Fulfilled (JBool true)) (start_future s))).
Proof.
  intros Hex Hs.
  assert (Halter : forall (f : Server A -> Server A) x,
    (forall s0, executor_future (f s0) = executor_future s0) ->
    (forall s0, listening (f s0) = true -> listening s0 = true) ->
    (forall s0, start_future (f s0) = start_future s0) ->
    exists s', alter f x (servers w) !! sv = Some s' /\
      executor_future s' = executor_future s /\
      (listening s' = true -> listening s = true) /\
      start_future s' = start_future s).
  { intros f x Hf1 Hf2 Hf3. destruct (decide (x = sv)) as [->|Hne].
    - rewrite list_lookup_alter_eq, Hs. simpl. eexists; split; [done|]. auto.
    - rewrite list_lookup_alter_ne by done. eauto. }
  assert (Hsame : exists s', servers w !! sv = Some s' /\
      executor_future s' = executor_future s /\
      (listening s' = true -> listening s = true) /\
      (start_future s' = start_future s \/
       (ev = EvConnection sv /\ hasConnected (this w) = false /\
        listening s = true /\
        start_future s' = settle (Fulfilled (JBool true)) (start_future s)))).
  { exists s. auto. }
  destruct ev as [c|re me|ce|ce|x|c chunk|c|c]; simpl in Hex.
  - injection Hex as <-. unfold sendCommand, sendCommand_executor; simpl.
    destruct (onReceiveCommand (this w)) as [conn|]; simpl; [|done].
    unfold onReceiveCommand_body; simpl.
    by destruct (commandQueue (this w ) ++ _).
  - injection Hex as <-. unfold start.
    destruct re as [e|]; [|destruct me as [e|]]; simpl;
      rewrite lookup_app_l by (by eapply lookup_lt_Some); exists s; auto.
  - injection Hex as <-. unfold shutdown; simpl.
    destruct (currentSocket (this w)) as [c|]; simpl;
      (destruct (socketServer (this w)) as [x|]; simpl; [destruct ce as [e|]; simpl|]);
      try done;
      (destruct (Halter (set_listening false) x) as (s' & ? & ? & ? & ?);
        [done|done|done|]; exists s'; auto).
  - injection Hex as <-. unfold shutdown; simpl.
    destruct (currentSocket (this w)) as [c|]; simpl;
      (destruct (socketServer (this w)) as [x|]; simpl; [destruct ce as [e|]; simpl|]);
      try done;
      (destruct (Halter (set_listening false) x) as (s' & ? & ? & ? & ?);
        [done|done|done|]; exists s'; auto).
  - destruct (servers w !! x) as [sx|] eqn:Hx; simpl in Hex; [|done].
    destruct (listening sx) eqn:Hl; [|done]. injection Hex as <-.
    unfold on_connection; simpl.
    destruct (hasConnected (this w)) eqn:Hhc; simpl; [done|].
    destruct (decide (x = sv)) as [->|Hne].
    + rewrite list_lookup_alter_eq, Hs. simpl. eexists; split; [done|].
      simplify_eq. simpl. auto 10.
    + rewrite list_lookup_alter_ne by done. exists s. auto.
  - destruct (conns w !! c) as [x|]; simpl in Hex; [|done]. injection Hex as <-.
    simpl.
    destruct (Halter (fun s0 => set_response (on_data chunk (response s0)) s0) x)
      as (s' & ? & ? & ? & ?); [done|done|done|]. exists s'; auto.
  - destruct (conns w !! c) as [x|]; simpl in Hex; [|done].
    destruct (servers w !! x) as [sx|]; simpl in Hex; [|done].
    destruct (on_end c (response sx) w) as [r1 [w1|e w1]] eqn:Hend; [|done].
    injection Hex as <-. simpl.
    apply on_end_frame in Hend as (Hsv & _). rewrite Hsv.
    destruct (Halter (set_response r1) x) as (s' & ? & ? & ? & ?);
      [done|done|done|]. exists s'; auto.
  - destruct (conns w !! c) as [x|]; simpl in Hex; [|done]. by injection Hex as <-.
Qed.

(** [hasConnected] is never reset. *)
Lemma exec_hasConnected ev w w' :
  exec ev w = Some w' ->
  hasConnected (this w) = true -> hasConnected (this w') = true.
Proof.
  intros Hex Hhc.
  destruct ev as [c|re me|ce|ce|x|c chunk|c|c]; simpl in Hex.
  - injection Hex as <-. unfold sendCommand, sendCommand_executor; simpl.
    destruct (onReceiveCommand (this w)) as [conn|]; simpl; [|done].
    unfold onReceiveCommand_body; simpl.
    by destruct (commandQueue (this w ) ++ _).
  - injection Hex as <-. unfold start.
    by destruct re as [e|]; [|destruct me as [e|]].
  - injection Hex as <-. unfold shutdown; simpl.
    by destruct (currentSocket (this w)) as [c|]; simpl;
      (destruct (socketServer (this w)) as [x|]; simpl; [destruct ce as [e|]; simpl|]).
  - injection Hex as <-. unfold shutdown; simpl.
    by destruct (currentSocket (this w)) as [c|]; simpl;
      (destruct (socketServer (this w)) as [x|]; simpl; [destruct ce as [e|]; simpl|]).
  - destruct (servers w !! x) as [sx|] eqn:Hx; simpl in Hex; [|done].
    destruct (listening sx) eqn:Hl; [|done]. injection Hex as <-.
    unfold on_connection; simpl. by rewrite Hhc.
  - destruct (conns w !! c) as [x|]; simpl in Hex; [|done]. by injection Hex as <-.
  - destruct (conns w !! c) as [x|]; simpl in Hex; [|done].
    destruct (servers w !! x) as [sx|]; simpl in Hex; [|done].
    destruct (on_end c (response sx) w) as [r1 [w1|e w1]] eqn:Hend; [|done].
    injection Hex as <-. simpl.
    apply on_end_frame in Hend as (_ & _ & Hh & _). by rewrite Hh.
  - destruct (conns w !! c) as [x|]; simpl in Hex; [|done]. by injection Hex as <-.
Qed.


(** Once a connection has been accepted, no start future changes any
    more. *)
Lemma connected_futures_stay w0 w sv s :
  reachable w0 w ->
  hasConnected (this w0) = true ->
  servers w0 !! sv = Some s ->
  hasConnected (this w) = true /\
  exists s', servers w !! sv = Some s' /\ start_future s' = start_future s.
Proof.
  induction 1 as [|w ev w' _ IH Hex]; [eauto|].
  intros Hhc Hs. destruct (IH Hhc Hs) as (Hhc' & s1 & Hs1 & Hf1).
  split; [by eapply exec_hasConnected|].
  destruct (exec_server ev w w' sv s1 Hex Hs1) as (s' & Hs' & _ & _ & Hf').
  exists s'. split; [done|].
  destruct Hf' as [->|(_ & ? & _)]; [done|congruence].
Qed.

(** A world computed by [run] is reachable. *)
Lemma run_reachable evs w0 w : run evs w0 = Some w -> reachable w0 w.
Proof.
  assert (Hgen : forall w1, reachable w0 w1 -> run evs w1 = Some w -> reachable w0 w).
  { induction evs as [|ev evs IH]; simpl; intros w1 Hr.
    - by intros [= <-].
    - destruct (exec ev w1) as [w2|] eqn:Hex; simpl; [|done].
      apply IH. by eapply reachable_step. }
  apply Hgen. constructor.
Qed.

End Invariants.

(** ** Properties of the proxy *)

Section Properties.

Context {A : Type} `{ResultAccumulator A}.

Implicit Types (w : World A) (k : Command).

(** The dispatch closure on a queue with a head. *)
Lemma onReceiveCommand_body_cons conn w k rest :
  commandQueue (this w) = k :: rest ->
  exists w',
    onReceiveCommand_body conn w = Normal w' /\
    curCommand (this w') = Some k /\
    commandQueue (this w') = rest /\
    onReceiveCommand (this w') = None /\
    trace w' = trace w ++ [SocketWrite conn (JSON_stringify_cmd (cmd k)); SocketEnd conn] /\
    promises w' = promises w /\ servers w' = servers w /\ conns w' = conns w /\
    hasConnected (this w') = hasConnected (this w) /\
    currentSocket (this w') = currentSocket (this w) /\
    socketServer (this w') = socketServer (this w).
Proof.
  intros Hq. unfold onReceiveCommand_body; simpl. rewrite Hq.
  eexists; split; [reflexivity|]. simpl. repeat split; done.
Qed.

(** C1. At every instant at most one command is in flight.  In every step
    of a world reachable from a new client the proxy writes at most one
    frame.  When it writes none, the in-flight marker keeps its value or is
    cleared.  When it writes one, the frame is the one of the command that
    the step leaves in the marker, that command was popped from the head of
    the pending queue, and either no command was in flight before the step,
    or the result of the previous one was delivered to its callback earlier
    in the same step, or the new command is the continuation request of the
    previous one, whose result is still incomplete. *)
Theorem at_most_one_in_flight sock w ev w' :
  reachable (new_world sock) w ->
  exec ev w = Some w' ->
  exists new,
    trace w' = trace w ++ new /\
    match writes new with
    | [] =>
        curCommand (this w') = curCommand (this w) \/
        curCommand (this w') = None
    | [(conn, data)] =>
        exists k,
          curCommand (this w') = Some k /\
          data = JSON_stringify_cmd (cmd k) /\
          ((curCommand (this w) = None /\ settlements new = [] /\
            (k :: commandQueue (this w') = commandQueue (this w) \/
             (ev = CallSendCommand (cmd k) /\ cb k = length (promises w) /\
              commandQueue (this w) = [] /\ commandQueue (this w') = [])))
           \/
           (exists prev, curCommand (this w) = Some prev /\
              settlements new = [cb prev] /\
              k :: commandQueue (this w') = commandQueue (this w))
           \/
           (exists prev, curCommand (this w) = Some prev /\
              settlements new = [] /\
              k = continuation_of prev /\
              commandQueue (this w') = commandQueue (this w)))
    | _ => False
    end.
Proof.
  intros Hreach Hex. apply reachable_Inv in Hreach as HI.
  destruct ev as [c|re me|ce|ce|sv|c chunk|c|c]; simpl in Hex.
  - (* sendCommand *)
    injection Hex as <-. unfold sendCommand, sendCommand_executor; simpl.
    destruct (onReceiveCommand (this w)) as [conn|] eqn:Hhook.
    + destruct (inv_idle w HI conn Hhook) as [Hcur Hq].
      unfold onReceiveCommand_body; simpl. rewrite Hq; simpl.
      eexists; split; [reflexivity|]. simpl.
      eexists; split; [reflexivity|]. split; [done|]. left. auto 10.
    + simpl. exists []. rewrite app_nil_r. simpl. auto.
  - (* start *)
    injection Hex as <-. unfold start.
    destruct re as [e|]; [|destruct me as [e|]]; simpl;
      rewrite <- ?app_assoc; (eexists; split; [reflexivity|]); simpl; auto.
  - (* shutdown *)
    injection Hex as <-. unfold shutdown; simpl.
    destruct (currentSocket (this w)) as [c|]; simpl;
      (destruct (socketServer (this w)) as [sv|]; simpl; [destruct ce as [e|]; simpl|]);
      rewrite <- ?app_assoc; extend_trace; simpl; auto.
  - (* safeShutdown *)
    injection Hex as <-. unfold shutdown; simpl.
    destruct (currentSocket (this w)) as [c|]; simpl;
      (destruct (socketServer (this w)) as [sv|]; simpl; [destruct ce as [e|]; simpl|]);
      rewrite <- ?app_assoc; extend_trace; simpl; auto.
  - (* connection *)
    destruct (servers w !! sv) as [s|]; simpl in Hex; [|done].
    destruct (listening s); [|done]. injection Hex as <-.
    unfold on_connection; simpl. destruct (hasConnected (this w)); simpl.
    + exists []. rewrite app_nil_r. simpl. auto.
    + eexists; split; [reflexivity|]. simpl. auto.
  - (* data *)
    destruct (conns w !! c) as [sv|]; simpl in Hex; [|done]. injection Hex as <-.
    exists []. rewrite app_nil_r. simpl. auto.
  - (* end *)
    destruct (conns w !! c) as [sv|]; simpl in Hex; [|done].
    destruct (servers w !! sv) as [s|]; simpl in Hex; [|done].
    revert Hex. unfold on_end, end_resolve_prior.
    destruct (curCommand (this w)) as [prev|] eqn:Hcur.
    + destruct (getResult (response s)) as [result r2].
      destruct (needsMoreData result).
      * unfold end_dispatch_next; simpl. intros [= <-]. simpl.
        eexists; split; [reflexivity|]. simpl.
        eexists; split; [reflexivity|]. split; [done|].
        right; right. exists prev. auto.
      * rewrite cb_call_cases. destruct (cb_throws result); [by simpl|].
        unfold end_dispatch_next; cbn -[onReceiveCommand_body].
        rewrite cb_returns_this; cbn -[onReceiveCommand_body].
        destruct (commandQueue (this w)) as [|k rest] eqn:Hq.
        -- intros [= <-]. simpl. rewrite cb_returns_trace.
           eexists; split; [reflexivity|].
           destruct (strict_eq_zero _); simpl; auto.
        -- unfold onReceiveCommand_body; simpl. rewrite cb_returns_this; simpl.
           rewrite Hq. intros [= <-]. simpl. rewrite cb_returns_trace, <- app_assoc.
           eexists; split; [reflexivity|].
           destruct (strict_eq_zero _); simpl;
             (eexists; split; [reflexivity|]; split; [done|]);
             right; left; exists prev; auto.
    + unfold end_dispatch_next.
      destruct (commandQueue (this w)) as [|k rest] eqn:Hq.
      * intros [= <-]. simpl. exists []. rewrite app_nil_r. simpl. auto.
      * unfold onReceiveCommand_body; simpl. rewrite Hq. intros [= <-]. simpl.
        eexists; split; [reflexivity|]. simpl.
        eexists; split; [reflexivity|]. split; [done|]. left. auto.
  - (* close *)
    destruct (conns w !! c) as [sv|]; simpl in Hex; [|done]. injection Hex as <-.
    exists []. rewrite app_nil_r. simpl. auto.
Qed.

(** The second half of the end handler never throws: it calls the dispatch
    closure only on a queue with a head. *)
Lemma end_dispatch_next_normal conn w :
  exists w', end_dispatch_next conn w = Normal w'.
Proof.
  unfold end_dispatch_next.
  destruct (commandQueue (this w)) as [|k rest] eqn:Hq; [by eexists|].
  destruct (onReceiveCommand_body_cons conn w k rest Hq) as (w' & -> & _).
  by eexists.
Qed.

Lemma strict_eq_zero_spec v : strict_eq_zero v = true <-> v = JNum 0.
Proof.
  destruct v; simpl; try (split; [done|intros [=]]).
  rewrite Z.eqb_eq. split; [by intros ->|by intros [= ->]].
Qed.

(** C2, as amended.  When the final result of the command in flight is
    processed, the future of that command is fulfilled with exactly the
    value of the result if the status is the number 0.  For every other
    status, and when [new Error(value)] can be built, that is when the
    conversion of the value to a string does not throw, the future is
    rejected with [new Error(value)].  The message of that error is the
    string conversion of the value: it is the value itself when the value
    is a string, and empty when the value is undefined. *)
Theorem final_result_settles_future sock w c sv s prev result r1 :
  reachable (new_world sock) w ->
  conns w !! c = Some sv ->
  servers w !! sv = Some s ->
  curCommand (this w) = Some prev ->
  getResult (response s) = (result, r1) ->
  needsMoreData result = false ->
  (status result = JNum 0 ->
   exists w',
     exec (EvEnd c) w = Some w' /\
     promises w' !! cb prev = Some (Fulfilled (value result))) /\
  (status result <> JNum 0 ->
   Error_throws (value result) = false ->
   exists w' e,
     exec (EvEnd c) w = Some w' /\
     promises w' !! cb prev = Some (Rejected e) /\
     e = Error (value result) /\
     (forall str, value result = JString str -> message e = Some str) /\
     (value result = JUndefined -> message e = Some EmptyString) /\
     (value result <> JUndefined ->
      safe_numbers (value result) = true ->
      message e = ToString (value result))).
Proof.
  intros Hreach Hc Hs Hcur Hres Hfinal. apply reachable_Inv in Hreach as HI.
  assert (Hpend : promises w !! cb prev = Some Pending).
  { apply (inv_pending w HI). unfold in_play. rewrite Hcur. by left. }
  assert (Hgo : cb_throws result = false ->
    exists w', exec (EvEnd c) w = Some w' /\
      promises w' !! cb prev =
        Some (if strict_eq_zero (status result)
              then Fulfilled (value result)
              else Rejected (Error (value result)))).
  { intros Hnothrow. simpl. rewrite Hc; simpl. rewrite Hs; simpl.
    unfold on_end, end_resolve_prior.
    rewrite Hcur, Hres, Hfinal, cb_call_cases, Hnothrow.
    destruct (end_dispatch_next_normal c
                (upd_this (set_curCommand None) (cb_returns (cb prev) result w)))
      as [w1 Hw1].
    assert (Hprom : promises w1 = promises (cb_returns (cb prev) result w)).
    { revert Hw1. unfold end_dispatch_next; simpl.
      destruct (commandQueue (this (cb_returns (cb prev) result w))) as [|k rest];
        [by intros [= <-]|].
      unfold onReceiveCommand_body; simpl.
      destruct (commandQueue (this (cb_returns (cb prev) result w))) as [|k' rest'];
        by intros [= <-]. }
    rewrite Hw1. eexists; split; [reflexivity|]. simpl.
    by rewrite Hprom, cb_returns_promises, list_lookup_alter_eq, Hpend. }
  split.
  - intros Hst. apply strict_eq_zero_spec in Hst as Hz.
    destruct Hgo as (w' & Hex & Hp); [unfold cb_throws; by rewrite Hz|].
    exists w'. split; [done|]. by rewrite Hz in Hp.
  - intros Hst Hconv.
    destruct (strict_eq_zero (status result)) eqn:Hz;
      [by apply strict_eq_zero_spec in Hz|].
    destruct Hgo as (w' & Hex & Hp); [unfold cb_throws; by rewrite Hz, Hconv|].
    exists w', (Error (value result)). split; [done|]. split; [done|].
    split; [done|]. split; [by intros str ->|]. split; [by intros ->|].
    intros Hne _. by destruct (value result).
Qed.

(** C3. On a connection-end event with a command in flight for which the
    accumulator reports needs-more-data, a continuation command with the
    identifier '#more' and the callback of the command in flight is put at
    the head of the pending queue, and nothing settles the future: the
    first half of the handler changes nothing else, and the whole handler
    sends that continuation and calls neither resolve nor reject. *)
Theorem needs_more_data_requeues_continuation conn r w prev result r1 :
  curCommand (this w) = Some prev ->
  getResult r = (result, r1) ->
  needsMoreData result = true ->
  (exists w1,
     end_resolve_prior r w = (r1, Normal w1) /\
     commandQueue (this w1) =
       {| cmd := MORE_COMMAND; cb := cb prev |} :: commandQueue (this w) /\
     curCommand (this w1) = Some prev /\
     promises w1 = promises w /\ trace w1 = trace w) /\
  (exists w2,
     on_end conn r w = (r1, Normal w2) /\
     promises w2 = promises w /\
     trace w2 = trace w ++ [SocketWrite conn (JSON_stringify_cmd MORE_COMMAND);
                            SocketEnd conn] /\
     curCommand (this w2) = Some {| cmd := MORE_COMMAND; cb := cb prev |} /\
     commandQueue (this w2) = commandQueue (this w)).
Proof.
  intros Hcur Hres Hmore. unfold on_end, end_resolve_prior.
  rewrite Hcur, Hres, Hmore. split.
  - eexists; split; [reflexivity|]. by simpl.
  - unfold end_dispatch_next, onReceiveCommand_body; simpl.
    eexists; split; [reflexivity|]. by simpl.
Qed.

(** The first half of the end handler leaves the sockets alone. *)
Lemma end_resolve_prior_sockets r w r1 w1 :
  end_resolve_prior r w = (r1, Normal w1) ->
  currentSocket (this w1) = currentSocket (this w).
Proof.
  unfold end_resolve_prior. destruct (curCommand (this w)) as [cur|].
  - destruct (getResult r) as [result r2]. destruct (needsMoreData result).
    + intros Heq. apply (f_equal (fun x => world_of (snd x))) in Heq.
      simpl in Heq. by subst w1.
    + rewrite cb_call_cases. destruct (cb_throws result); [discriminate|].
      intros Heq. apply (f_equal (fun x => world_of (snd x))) in Heq.
      simpl in Heq. subst w1. simpl. by rewrite cb_returns_this.
  - intros Heq. apply (f_equal (fun x => world_of (snd x))) in Heq.
    simpl in Heq. by subst w1.
Qed.

(** C5, as amended.  The dispatch step of the end handler, on the world
    [w1] that the first half leaves.  If the pending queue has a head, the
    head becomes the command in flight, its frame JSON.stringify({cmd}) is
    written on the connection whose end event is handled and the write
    side of that connection is then ended.  If the queue is empty, the
    closure is stored in onReceiveCommand, nothing is written, and the
    next sendCommand performs that dispatch at once: its command becomes
    the command in flight and its frame is written and the write side
    ended on that same connection.  Neither step changes currentSocket,
    so the connection written to is the tracked current connection
    exactly when currentSocket held it before. *)
Theorem dispatch_next_after_end conn r w r1 w1 :
  end_resolve_prior r w = (r1, Normal w1) ->
  (forall k rest,
     commandQueue (this w1) = k :: rest ->
     exists w2,
       on_end conn r w = (r1, Normal w2) /\
       curCommand (this w2) = Some k /\
       commandQueue (this w2) = rest /\
       trace w2 = trace w1 ++ [SocketWrite conn (JSON_stringify_cmd (cmd k));
                               SocketEnd conn] /\
       currentSocket (this w2) = currentSocket (this w)) /\
  (commandQueue (this w1) = [] ->
   exists w2,
     on_end conn r w = (r1, Normal w2) /\
     onReceiveCommand (this w2) = Some conn /\
     curCommand (this w2) = curCommand (this w1) /\
     trace w2 = trace w1 /\
     currentSocket (this w2) = currentSocket (this w) /\
     forall c,
       let p := fst (sendCommand c w2) in
       let w3 := snd (sendCommand c w2) in
       p = length (promises w2) /\
       curCommand (this w3) = Some {| cmd := c; cb := p |} /\
       commandQueue (this w3) = [] /\
       onReceiveCommand (this w3) = None /\
       trace w3 = trace w2 ++ [SocketWrite conn (JSON_stringify_cmd c);
                               SocketEnd conn] /\
       currentSocket (this w3) = currentSocket (this w)).
Proof.
  intros Hprior. pose proof (end_resolve_prior_sockets r w r1 w1 Hprior) as Hcs.
  unfold on_end. rewrite Hprior. split.
  - intros k rest Hq. unfold end_dispatch_next. rewrite Hq.
    destruct (onReceiveCommand_body_cons conn w1 k rest Hq)
      as (w2 & -> & Hc & Hq2 & _ & Htr & _ & _ & _ & _ & Hcs2 & _).
    exists w2. repeat (split; [done|]). by rewrite Hcs2.
  - intros Hq. unfold end_dispatch_next. rewrite Hq.
    eexists; split; [reflexivity|]. simpl. repeat (split; [done|]).
    intros c.
    unfold sendCommand, sendCommand_executor, onReceiveCommand_body;
      simpl; by rewrite Hq.
Qed.

(** C8. A connection-end event with no command in flight: the buffer of
    the accumulator is reset, no future is settled (neither a future of
    sendCommand nor one of start), the handler ends normally, and the
    dispatch step goes on as usual: the head of the queue is sent, or the
    closure is stored for the next sendCommand. *)
Theorem unsolicited_frame_is_discarded w c sv s :
  conns w !! c = Some sv ->
  servers w !! sv = Some s ->
  curCommand (this w) = None ->
  exists w',
    exec (EvEnd c) w = Some w' /\
    servers w' = alter (set_response (resetBuffer (response s))) sv (servers w) /\
    servers w' !! sv = Some (set_response (resetBuffer (response s)) s) /\
    promises w' = promises w /\
    (exists new, trace w' = trace w ++ new /\ settlements new = [] /\
                 start_resolves new = 0) /\
    match commandQueue (this w) with
    | k :: rest =>
        curCommand (this w') = Some k /\
        commandQueue (this w') = rest /\
        onReceiveCommand (this w') = None /\
        trace w' = trace w ++ [SocketWrite c (JSON_stringify_cmd (cmd k));
                               SocketEnd c]
    | [] =>
        curCommand (this w') = None /\
        commandQueue (this w') = [] /\
        onReceiveCommand (this w') = Some c /\
        trace w' = trace w
    end.
Proof.
  intros Hc Hs Hcur. simpl. rewrite Hc; simpl. rewrite Hs; simpl.
  unfold on_end, end_resolve_prior, end_dispatch_next. rewrite Hcur.
  destruct (commandQueue (this w)) as [|k rest] eqn:Hq.
  - eexists; split; [reflexivity|]. simpl.
    rewrite list_lookup_alter_eq, Hs. repeat split; try done.
    exists []. by rewrite app_nil_r.
  - unfold onReceiveCommand_body; simpl. rewrite Hq.
    eexists; split; [reflexivity|]. simpl.
    rewrite list_lookup_alter_eq, Hs. repeat split; try done.
    by eexists.
Qed.

(** C9. The dispatch closure throws exactly when it runs on an empty
    queue, and neither of its two callers ever makes it do so: the
    executor of sendCommand calls it only after it has pushed the new
    command, and the end handler only when the queue has a head.  The
    executor and the dispatch step of the end handler end normally in
    every world; the end handler as a whole ends normally too, unless the
    callback of its first half has thrown, in which case the dispatch
    step is not reached. *)
Theorem dispatch_hook_never_pops_empty_queue :
  (forall conn w,
     (exists e w', onReceiveCommand_body conn w = Throw e w') <->
     commandQueue (this w) = []) /\
  (forall c p w, exists w', sendCommand_executor c p w = Normal w') /\
  (forall conn w, exists w', end_dispatch_next conn w = Normal w') /\
  (forall conn r w,
     (exists w', snd (on_end conn r w) = Normal w') \/
     (exists e w', snd (end_resolve_prior r w) = Throw e w' /\
                   snd (on_end conn r w) = Throw e w')).
Proof.
  split; [|split; [|split]].
  - intros conn w. unfold onReceiveCommand_body; simpl.
    destruct (commandQueue (this w)) as [|k rest]; split; try done.
    + intros _. by do 2 eexists.
    + by intros (e & w' & [=]).
  - intros c p w. unfold sendCommand_executor; simpl.
    destruct (onReceiveCommand (this w)) as [conn|]; [|by eexists].
    unfold onReceiveCommand_body; simpl.
    destruct (commandQueue (this w)) as [|k rest]; by eexists.
  - apply end_dispatch_next_normal.
  - intros conn r w. unfold on_end.
    destruct (end_resolve_prior r w) as [r1 [w1|e w1]]; simpl.
    + left. apply end_dispatch_next_normal.
    + right. by do 2 eexists.
Qed.

(** C10. sendCommand takes every string as identifier, the empty string
    and '#more' included, with no check.  It returns a new pending future.
    With no closure stored, the command goes to the tail of the queue and
    nothing else happens; with a closure stored, the head of the extended
    queue is dispatched.  When such a command is at the head of the queue,
    the dispatch step sends it the same way for every identifier: the
    frame is JSON.stringify({cmd}) of the identifier as given. *)
Theorem sendCommand_accepts_any_identifier c w :
  let p := fst (sendCommand c w) in
  let w' := snd (sendCommand c w) in
  p = length (promises w) /\
  promises w' = promises w ++ [Pending] /\
  (onReceiveCommand (this w) = None ->
   commandQueue (this w') = commandQueue (this w) ++ [{| cmd := c; cb := p |}] /\
   curCommand (this w') = curCommand (this w) /\
   trace w' = trace w) /\
  (forall conn, onReceiveCommand (this w) = Some conn ->
   exists k,
     k :: commandQueue (this w') =
       commandQueue (this w) ++ [{| cmd := c; cb := p |}] /\
     curCommand (this w') = Some k /\
     trace w' = trace w ++ [SocketWrite conn (JSON_stringify_cmd (cmd k));
                            SocketEnd conn]) /\
  (forall conn (w0 : World A) p0 rest,
     commandQueue (this w0) = {| cmd := c; cb := p0 |} :: rest ->
     exists w1,
       end_dispatch_next conn w0 = Normal w1 /\
       curCommand (this w1) = Some {| cmd := c; cb := p0 |} /\
       commandQueue (this w1) = rest /\
       trace w1 = trace w0 ++ [SocketWrite conn (JSON_stringify_cmd c);
                               SocketEnd conn]).
Proof.
  simpl. unfold sendCommand, sendCommand_executor; simpl.
  split; [|split; [|split; [|split]]].
  - destruct (onReceiveCommand (this w)); [|done].
    unfold onReceiveCommand_body; simpl.
    by destruct (commandQueue (this w)).
  - destruct (onReceiveCommand (this w)); [|done].
    unfold onReceiveCommand_body; simpl.
    by destruct (commandQueue (this w)).
  - by intros ->.
  - intros conn ->. unfold onReceiveCommand_body; simpl.
    destruct (commandQueue (this w)) as [|k rest]; simpl; by eexists.
  - intros conn w0 p0 rest Hq. unfold end_dispatch_next. rewrite Hq.
    destruct (onReceiveCommand_body_cons conn w0 _ rest Hq)
      as (w1 & -> & Hc & Hq1 & _ & Htr & _).
    by exists w1.
Qed.

(** C4. The future that start returns is fulfilled with true exactly
    once, on the first connection that the client accepts.  In a world
    reachable from a new client: [resolve] of a start future has been
    called at most once; while no connection has been accepted every start
    future is pending; the first accepted connection fulfils the future of
    its server with true by the one call of [resolve]; and once a
    connection has been accepted no step, a further connection included,
    calls [resolve] again or changes a start future. *)
Theorem start_future_fulfils_once sock w :
  reachable (new_world sock) w ->
  start_resolves (trace w) <= 1 /\
  (hasConnected (this w) = false ->
   start_resolves (trace w) = 0 /\
   (forall sv s, servers w !! sv = Some s -> start_future s = Pending) /\
   (forall sv w',
      exec (EvConnection sv) w = Some w' ->
      hasConnected (this w') = true /\
      trace w' = trace w ++ [StartResolve sv (JBool true)] /\
      exists s', servers w' !! sv = Some s' /\
                 start_future s' = Fulfilled (JBool true))) /\
  (hasConnected (this w) = true ->
   forall ev w',
     exec ev w = Some w' ->
     hasConnected (this w') = true /\
     start_resolves (trace w') = start_resolves (trace w) /\
     forall sv s, servers w !! sv = Some s ->
       exists s', servers w' !! sv = Some s' /\
                  start_future s' = start_future s).
Proof.
  intros Hreach. pose proof (reachable_Inv _ _ Hreach) as HI.
  split; [|split].
  - rewrite (inv_resolves w HI). destruct (hasConnected (this w)); lia.
  - intros Hhc. split; [|split].
    + by rewrite (inv_resolves w HI), Hhc.
    + intros sv s Hs.
      destruct (inv_futures w HI sv s Hs) as [?|[? _]]; [done|congruence].
    + intros sv w' Hex. simpl in Hex.
      destruct (servers w !! sv) as [s|] eqn:Hs; simpl in Hex; [|done].
      destruct (listening s); [|done]. injection Hex as <-.
      unfold on_connection; simpl. rewrite Hhc; simpl.
      split; [done|]. split; [done|].
      rewrite list_lookup_alter_eq, Hs; simpl.
      eexists; split; [done|]. simpl.
      destruct (inv_futures w HI sv s Hs) as [->|[? _]]; [done|congruence].
  - intros Hhc ev w' Hex.
    assert (Hhc' : hasConnected (this w') = true)
      by (by eapply exec_hasConnected).
    split; [done|]. split.
    + assert (HI' : Inv w') by (by eapply exec_Inv).
      by rewrite (inv_resolves w HI), (inv_resolves w' HI'), Hhc, Hhc'.
    + intros sv s Hs.
      destruct (exec_server ev w w' sv s Hex Hs) as (s' & Hs' & _ & _ & Hf).
      exists s'. split; [done|].
      destruct Hf as [->|(_ & ? & _)]; [done|congruence].
Qed.


(** C7, as amended.  After a [shutdown] that completed, the command in
    flight, the stored closure, the current socket and the server are
    null, so a second [shutdown] does nothing and completes, whatever
    closing a server would answer.  [shutdown] resets neither
    [hasConnected] nor the pending queue, and it fails only when there is
    a server whose closing fails.  A [start] after it makes a new
    listening server with a new accumulator and a pending future, and the
    first connection accepted by that server fulfils the future with true
    only if the client had never accepted a connection before; otherwise
    the future stays pending. *)
Theorem shutdown_twice_then_start w ce w1 :
  shutdown ce w = (w1, Fulfilled JUndefined) ->
  (curCommand (this w1) = None /\ onReceiveCommand (this w1) = None /\
   currentSocket (this w1) = None /\ socketServer (this w1) = None) /\
  (hasConnected (this w1) = hasConnected (this w) /\
   commandQueue (this w1) = commandQueue (this w)) /\
  (forall ce2, shutdown ce2 w1 = (w1, Fulfilled JUndefined)) /\
  (forall ce0 (w0 : World A),
     socketServer (this w0) = None \/ ce0 = None ->
     snd (shutdown ce0 w0) = Fulfilled JUndefined) /\
  exists sv w2,
    start None None w1 = (sv, w2) /\
    socketServer (this w2) = Some sv /\
    servers w2 !! sv =
      Some {| start_future := Pending; executor_future := Fulfilled JUndefined;
              response := new_UIAutoResponse; listening := true |} /\
    trace w2 = trace w1 ++ [FsRimraf (sock (this w)); FsMkdirpDirname (sock (this w));
                            ServerListen sv (sock (this w))] /\
    exists w3,
      exec (EvConnection sv) w2 = Some w3 /\
      exists s, servers w3 !! sv = Some s /\
        start_future s =
          if hasConnected (this w) then Pending else Fulfilled (JBool true).
Proof.
  intros Hsh.
  assert (Hw1 : (curCommand (this w1) = None /\ onReceiveCommand (this w1) = None /\
                 currentSocket (this w1) = None /\ socketServer (this w1) = None) /\
                hasConnected (this w1) = hasConnected (this w) /\
                commandQueue (this w1) = commandQueue (this w) /\
                sock (this w1) = sock (this w)).
  { revert Hsh. unfold shutdown; simpl.
    destruct (currentSocket (this w)) as [c|] eqn:Hcs0; simpl;
      (destruct (socketServer (this w)) as [sv|] eqn:Hsv; simpl;
       [destruct ce as [e|]; simpl|]);
      intros Heq; pose proof (f_equal snd Heq) as Hp; simpl in Hp;
      try discriminate Hp;
      apply (f_equal fst) in Heq; simpl in Heq; subst w1; simpl; by rewrite ?Hsv, ?Hcs0. }
  destruct Hw1 as ((Hcur & Hhook & Hcs & Hss) & Hhc & Hq & Hsock).
  split; [done|]. split; [done|]. split.
  { intros ce2. unfold shutdown. simpl. rewrite Hcs; simpl. rewrite Hss.
    f_equal. destruct w1 as [[] ? ? ? ?]. simpl in *. by subst. }
  split.
  { intros ce0 w0 Hok. unfold shutdown; simpl.
    destruct (currentSocket (this w0)); simpl;
      destruct (socketServer (this w0)); simpl; try done;
      destruct Hok as [?| ->]; done. }
  assert (Hnew : forall x : Server A,
            (servers w1 ++ [x]) !! length (servers w1) = Some x)
    by (intros x; by apply list_lookup_middle).
  unfold start; simpl. do 2 eexists. split; [reflexivity|]. simpl.
  split; [done|]. split; [apply Hnew|].
  split; [by rewrite Hsock, <- !app_assoc|].
  rewrite Hnew; simpl.
  eexists; split; [reflexivity|].
  unfold on_connection; simpl. rewrite Hhc.
  destruct (hasConnected (this w)); simpl.
  - rewrite Hnew. by eexists.
  - rewrite list_lookup_alter_eq, Hnew. simpl. by eexists.
Qed.

End Properties.

(** ** The properties on concrete runs *)

Lemma world_after_reachable evs w :
  run evs (new_world default_sock) = Some w ->
  reachable (new_world default_sock) (world_after evs).
Proof.
  intros Hrun. unfold world_after. rewrite Hrun. simpl.
  by apply run_reachable in Hrun.
Qed.

Lemma at_most_one_in_flight_witness :
  reachable (new_world default_sock) connected_world /\
  exists w',
    exec (EvEnd 0) connected_world = Some w' /\
    exists new,
      trace w' = trace connected_world ++ new /\
      writes new = [(0, JSON_stringify_cmd "getSession")] /\
      curCommand (this w') = Some {| cmd := "getSession"; cb := 0 |}.
Proof.
  assert (Hr : reachable (new_world default_sock) connected_world)
    by (eapply world_after_reachable; reflexivity).
  split; [exact Hr|].
  eexists. split; [reflexivity|].
  destruct (at_most_one_in_flight default_sock connected_world (EvEnd 0) _ Hr eq_refl)
    as (new & Hnew & _).
  exists new. split; [exact Hnew|].
  apply app_inv_head in Hnew. subst new. split; reflexivity.
Defined.


Lemma final_result_settles_future_witness :
  reachable (new_world default_sock) (answered_world frame_abc) /\
  curCommand (this (answered_world frame_abc)) =
    Some {| cmd := "getSession"; cb := 0 |} /\
  (exists w',
     exec (EvEnd 1) (answered_world frame_abc) = Some w' /\
     promises w' !! 0 = Some (Fulfilled (JString "abc"))) /\
  (exists w' e,
     exec (EvEnd 1) (answered_world frame_no_such_element) = Some w' /\
     promises w' !! 0 = Some (Rejected e) /\
     message e = Some "no such element").
Proof.
  assert (Hr : reachable (new_world default_sock) (answered_world frame_abc))
    by (eapply world_after_reachable; by_computation).
  assert (Hc : conns (answered_world frame_abc) !! 1 = Some 0)
    by by_computation.
  assert (Hs : servers (answered_world frame_abc) !! 0 =
    Some {| start_future := Fulfilled (JBool true);
            executor_future := Fulfilled JUndefined;
            response := {| Scripted.bufferedData := frame_abc |};
            listening := true |}) by by_computation.
  assert (Hcur : curCommand (this (answered_world frame_abc)) =
                   Some {| cmd := "getSession"; cb := 0 |}) by by_computation.
  assert (Hres : getResult {| Scripted.bufferedData := frame_abc |} =
    ({| status := JNum 0; value := JString "abc"; needsMoreData := false |},
     {| Scripted.bufferedData := "" |})) by by_computation.
  assert (Hr' : reachable (new_world default_sock)
                  (answered_world frame_no_such_element))
    by (eapply world_after_reachable; by_computation).
  assert (Hc' : conns (answered_world frame_no_such_element) !! 1 = Some 0)
    by by_computation.
  assert (Hs' : servers (answered_world frame_no_such_element) !! 0 =
    Some {| start_future := Fulfilled (JBool true);
            executor_future := Fulfilled JUndefined;
            response := {| Scripted.bufferedData := frame_no_such_element |};
            listening := true |}) by by_computation.
  assert (Hcur' : curCommand (this (answered_world frame_no_such_element)) =
                    Some {| cmd := "getSession"; cb := 0 |}) by by_computation.
  assert (Hres' : getResult {| Scripted.bufferedData := frame_no_such_element |} =
    ({| status := JNum 1; value := JString "no such element";
        needsMoreData := false |},
     {| Scripted.bufferedData := "" |})) by by_computation.
  assert (Hst : JNum 1 <> JNum 0) by discriminate.
  split; [exact Hr|]. split; [exact Hcur|]. split.
  - destruct (final_result_settles_future default_sock (answered_world frame_abc)
                1 0 _ _ _ _ Hr Hc Hs Hcur Hres eq_refl) as (Hok & _).
    exact (Hok eq_refl).
  - destruct (final_result_settles_future default_sock
                (answered_world frame_no_such_element)
                1 0 _ _ _ _ Hr' Hc' Hs' Hcur' Hres' eq_refl) as (_ & Hfail).
    destruct (Hfail Hst eq_refl) as (w' & e & Hex & Hp & _ & Hmsg & _).
    exists w', e. split; [exact Hex|]. split; [exact Hp|].
    exact (Hmsg _ eq_refl).
Defined.

(** C2, as stated, fails: a final result with status 1 and value null
    rejects the future with an error whose message is the string of four
    letters, which is not the value of the result. *)
Lemma rejection_message_is_not_the_value :
  curCommand (this (answered_world frame_null_error)) =
    Some {| cmd := "getSession"; cb := 0 |} /\
  (response <$> servers (answered_world frame_null_error) !! 0) ≫=
    (fun r => Some (fst (getResult r))) =
    Some {| status := JNum 1; value := JNull; needsMoreData := false |} /\
  exists w' e,
    exec (EvEnd 1) (answered_world frame_null_error) = Some w' /\
    promises w' !! 0 = Some (Rejected e) /\
    message e = Some "null" /\
    forall str, message e = Some str -> JString str <> JNull.
Proof.
  split; [by_computation|]. split; [by_computation|].
  do 2 eexists. split; [by_computation|]. split; [by_computation|].
  split; [by_computation|]. discriminate.
Qed.

Lemma needs_more_data_requeues_continuation_witness :
  curCommand (this partial_world) = Some {| cmd := "getSession"; cb := 0 |} /\
  commandQueue (this partial_world) = [{| cmd := "next"; cb := 1 |}] /\
  (exists w1,
     end_resolve_prior {| Scripted.bufferedData := "2,{" |} partial_world =
       ({| Scripted.bufferedData := "2,{" |}, Normal w1) /\
     commandQueue (this w1) =
       {| cmd := "#more"; cb := 0 |} :: commandQueue (this partial_world) /\
     promises w1 = promises partial_world) /\
  (exists w2,
     on_end 1 {| Scripted.bufferedData := "2,{" |} partial_world =
       ({| Scripted.bufferedData := "2,{" |}, Normal w2) /\
     promises w2 = promises partial_world).
Proof.
  assert (Hcur : curCommand (this partial_world) =
                   Some {| cmd := "getSession"; cb := 0 |}) by by_computation.
  assert (Hres : getResult {| Scripted.bufferedData := "2,{" |} =
    ({| status := JUndefined; value := JUndefined; needsMoreData := true |},
     {| Scripted.bufferedData := "2,{" |})) by by_computation.
  split; [exact Hcur|]. split; [by_computation|].
  destruct (needs_more_data_requeues_continuation 1
              {| Scripted.bufferedData := "2,{" |} partial_world
              _ _ _ Hcur Hres eq_refl)
    as [(w1 & H1 & Hq & _ & Hp & _) (w2 & H2 & Hp2 & _)].
  split.
  - exists w1. split; [exact H1|]. split; [exact Hq|exact Hp].
  - exists w2. split; [exact H2|exact Hp2].
Defined.

Lemma start_future_fulfils_once_witness :
  reachable (new_world default_sock) started_world /\
  reachable (new_world default_sock) connected_world /\
  hasConnected (this started_world) = false /\
  hasConnected (this connected_world) = true /\
  (forall s, servers started_world !! 0 = Some s -> start_future s = Pending) /\
  (forall w',
     exec (EvConnection 0) started_world = Some w' ->
     trace w' = trace started_world ++ [StartResolve 0 (JBool true)] /\
     exists s', servers w' !! 0 = Some s' /\
                start_future s' = Fulfilled (JBool true)) /\
  (forall w',
     exec (EvConnection 0) connected_world = Some w' ->
     start_resolves (trace w') = start_resolves (trace connected_world) /\
     exists s', servers w' !! 0 = Some s' /\
                start_future s' = Fulfilled (JBool true)).
Proof.
  assert (Hr0 : reachable (new_world default_sock) started_world)
    by (eapply world_after_reachable; by_computation).
  assert (Hr1 : reachable (new_world default_sock) connected_world)
    by (eapply world_after_reachable; by_computation).
  assert (Hh0 : hasConnected (this started_world) = false) by by_computation.
  assert (Hh1 : hasConnected (this connected_world) = true) by by_computation.
  assert (Hs1 : servers connected_world !! 0 =
    Some {| start_future := Fulfilled (JBool true);
            executor_future := Fulfilled JUndefined;
            response := new_UIAutoResponse; listening := true |})
    by by_computation.
  split; [exact Hr0|]. split; [exact Hr1|].
  split; [exact Hh0|]. split; [exact Hh1|].
  destruct (start_future_fulfils_once default_sock _ Hr0) as (_ & Hfirst & _).
  destruct (Hfirst Hh0) as (_ & Hpend & Hconn).
  destruct (start_future_fulfils_once default_sock _ Hr1) as (_ & _ & Hlater).
  split; [exact (Hpend 0)|]. split.
  - intros w' Hex. destruct (Hconn 0 w' Hex) as (_ & Htr & Hs').
    split; [exact Htr|exact Hs'].
  - intros w' Hex.
    destruct (Hlater Hh1 (EvConnection 0) w' Hex) as (_ & Hcount & Hsame).
    split; [exact Hcount|].
    destruct (Hsame 0 _ Hs1) as (s' & Hs' & Hf).
    exists s'. split; [exact Hs'|exact Hf].
Defined.

Lemma dispatch_next_after_end_witness :
  JSON_stringify_cmd "getSession" = frame_of_getSession /\
  JSON_stringify_cmd escaped_identifier = frame_of_escaped_identifier /\
  (exists w2,
     on_end 0 new_UIAutoResponse connected_world =
       (resetBuffer new_UIAutoResponse, Normal w2) /\
     curCommand (this w2) = Some {| cmd := "getSession"; cb := 0 |} /\
     commandQueue (this w2) = [] /\
     trace w2 = trace connected_world ++
                [SocketWrite 0 frame_of_getSession; SocketEnd 0] /\
     currentSocket (this w2) = Some 0) /\
  (exists w2,
     on_end 0 new_UIAutoResponse idle_world =
       (resetBuffer new_UIAutoResponse, Normal w2) /\
     onReceiveCommand (this w2) = Some 0 /\
     trace w2 = trace idle_world /\
     curCommand (this (snd (sendCommand "getSession" w2))) =
       Some {| cmd := "getSession"; cb := 0 |} /\
     trace (snd (sendCommand "getSession" w2)) =
       trace w2 ++ [SocketWrite 0 frame_of_getSession; SocketEnd 0]).
Proof.
  assert (Hbytes : JSON_stringify_cmd "getSession" = frame_of_getSession)
    by by_computation.
  assert (H1 : end_resolve_prior new_UIAutoResponse connected_world =
                 (resetBuffer new_UIAutoResponse, Normal connected_world))
    by by_computation.
  assert (Hq1 : commandQueue (this connected_world) =
                  [{| cmd := "getSession"; cb := 0 |}]) by by_computation.
  assert (Hcs1 : currentSocket (this connected_world) = Some 0)
    by by_computation.
  assert (H2 : end_resolve_prior new_UIAutoResponse idle_world =
                 (resetBuffer new_UIAutoResponse, Normal idle_world))
    by by_computation.
  assert (Hq2 : commandQueue (this idle_world) = []) by by_computation.
  split; [exact Hbytes|]. split; [by_computation|]. split.
  - destruct (dispatch_next_after_end 0 _ _ _ _ H1) as [Hhead _].
    destruct (Hhead _ _ Hq1) as (w2 & Hend & Hcur & Hq & Htr & Hcs).
    exists w2. split; [exact Hend|]. split; [exact Hcur|].
    split; [exact Hq|]. split; [|by rewrite Hcs].
    rewrite Htr. simpl. by rewrite Hbytes.
  - destruct (dispatch_next_after_end 0 _ _ _ _ H2) as [_ Hempty].
    destruct (Hempty Hq2) as (w2 & Hend & Hhook & _ & Htr & _ & Hnext).
    exists w2. split; [exact Hend|]. split; [exact Hhook|].
    split; [exact Htr|].
    destruct (Hnext "getSession") as (Hp & Hcur & _ & _ & Htr3 & _).
    split; [|by rewrite Htr3, Hbytes].
    rewrite Hcur, Hp.
    assert (Hlen : length (promises w2) = 0).
    { apply (f_equal (fun x => length (promises (world_of (snd x))))) in Hend.
      simpl in Hend. rewrite <- Hend. by_computation. }
    by rewrite Hlen.
Defined.

(** C5, as stated, fails: the frame goes to the connection whose end event
    is handled, which need not be the current connection.  With two
    connections open and the second one current, the end of the first
    sends the queued command on the first, and nothing is ever written on
    the current one; and a closure stored at the end of the first makes
    the next sendCommand write on the first as well. *)
Lemma frame_is_not_written_on_the_current_connection :
  currentSocket (this two_connections_queued_world) = Some 1 /\
  (exists w',
     exec (EvEnd 0) two_connections_queued_world = Some w' /\
     currentSocket (this w') = Some 1 /\
     writes (trace w') = [(0, frame_of_getSession)]) /\
  currentSocket (this two_connections_world) = Some 1 /\
  (exists w',
     exec (EvEnd 0) two_connections_world = Some w' /\
     onReceiveCommand (this w') = Some 0 /\
     currentSocket (this (snd (sendCommand "getSession" w'))) = Some 1 /\
     writes (trace (snd (sendCommand "getSession" w'))) =
       [(0, frame_of_getSession)]).
Proof.
  split; [by_computation|]. split.
  - eexists. split; [by_computation|]. split; by_computation.
  - split; [by_computation|].
    eexists. split; [by_computation|]. split; [by_computation|].
    split; by_computation.
Qed.



Lemma shutdown_twice_then_start_witness :
  exists w1,
    shutdown None started_world = (w1, Fulfilled JUndefined) /\
    shutdown None w1 = (w1, Fulfilled JUndefined) /\
    shutdown (Some EACCES) w1 = (w1, Fulfilled JUndefined) /\
    exists sv w2 w3,
      start None None w1 = (sv, w2) /\
      exec (EvConnection sv) w2 = Some w3 /\
      exists s, servers w3 !! sv = Some s /\
                start_future s = Fulfilled (JBool true).
Proof.
  eexists. split; [by_computation|].
  destruct (shutdown_twice_then_start started_world None _ eq_refl)
    as (_ & _ & Hagain & _ & sv & w2 & Hst & _ & _ & _ & w3 & Hex & s & Hs & Hf).
  split; [exact (Hagain None)|]. split; [exact (Hagain (Some EACCES))|].
  exists sv, w2, w3. split; [exact Hst|]. split; [exact Hex|].
  exists s. split; [exact Hs|exact Hf].
Defined.

(** C7, as stated, fails: after a session that accepted a connection, two
    shutdowns and a new start, the first connection that the new server
    accepts does not fulfil the new start future, and nothing fulfils it
    later. *)
Lemma restart_future_stays_pending :
  reachable (new_world default_sock) restarted_world /\
  socketServer (this restarted_world) = Some 1 /\
  servers restarted_world !! 1 =
    Some {| start_future := Pending; executor_future := Fulfilled JUndefined;
            response := new_UIAutoResponse; listening := true |} /\
  exists w3,
    exec (EvConnection 1) restarted_world = Some w3 /\
    currentSocket (this w3) = Some 1 /\
    forall w4, reachable w3 w4 ->
      exists s, servers w4 !! 1 = Some s /\ start_future s = Pending.
Proof.
  split; [eapply world_after_reachable; by_computation|].
  split; [by_computation|]. split; [by_computation|].
  eexists. split; [by_computation|]. split; [by_computation|].
  intros w4 Hreach.
  destruct (connected_futures_stay _ w4 1
              {| start_future := Pending; executor_future := Fulfilled JUndefined;
                 response := new_UIAutoResponse; listening := true |} Hreach)
    as (_ & s' & Hs' & Hf); [by_computation|by_computation|].
  exists s'. split; [exact Hs'|exact Hf].
Qed.

Lemma unsolicited_frame_is_discarded_witness :
  exists w',
    exec (EvEnd 0) connected_world = Some w' /\
    servers w' !! 0 =
      Some {| start_future := Fulfilled (JBool true);
              executor_future := Fulfilled JUndefined;
              response := {| Scripted.bufferedData := "" |};
              listening := true |} /\
    promises w' = promises connected_world /\
    curCommand (this w') = Some {| cmd := "getSession"; cb := 0 |}.
Proof.
  assert (Hc : conns connected_world !! 0 = Some 0) by by_computation.
  assert (Hs : servers connected_world !! 0 =
    Some {| start_future := Fulfilled (JBool true);
            executor_future := Fulfilled JUndefined;
            response := new_UIAutoResponse; listening := true |})
    by by_computation.
  assert (Hcur : curCommand (this connected_world) = None) by by_computation.
  assert (Hq : commandQueue (this connected_world) =
                 [{| cmd := "getSession"; cb := 0 |}]) by by_computation.
  destruct (unsolicited_frame_is_discarded connected_world 0 0 _ Hc Hs Hcur)
    as (w' & Hex & _ & Hsv & Hp & _ & Hdisp).
  rewrite Hq in Hdisp. destruct Hdisp as (Hcur' & _).
  exists w'. split; [exact Hex|]. split; [exact Hsv|].
  split; [exact Hp|exact Hcur'].
Defined.

Lemma sendCommand_accepts_any_identifier_witness :
  commandQueue (this (snd (sendCommand MORE_COMMAND started_world))) =
    [{| cmd := "#more"; cb := 0 |}] /\
  commandQueue (this (snd (sendCommand EmptyString started_world))) =
    [{| cmd := EmptyString; cb := 0 |}] /\
  exists w1,
    end_dispatch_next 0 (snd (sendCommand MORE_COMMAND started_world)) = Normal w1 /\
    trace w1 = trace started_world ++
               [SocketWrite 0 (JSON_stringify_cmd "#more"); SocketEnd 0].
Proof.
  assert (Hhook : onReceiveCommand (this started_world) = None)
    by by_computation.
  destruct (sendCommand_accepts_any_identifier MORE_COMMAND started_world)
    as (Hp & _ & Htail & _ & Hdisp).
  destruct (sendCommand_accepts_any_identifier EmptyString started_world)
    as (Hp' & _ & Htail' & _).
  destruct (Htail Hhook) as (Hq & _ & Htr).
  destruct (Htail' Hhook) as (Hq' & _).
  split; [rewrite Hq, Hp; by_computation|].
  split; [rewrite Hq', Hp'; by_computation|].
  destruct (Hdisp 0 (snd (sendCommand MORE_COMMAND started_world)) 0 [])
    as (w1 & Hend & _ & _ & Htr1).
  { rewrite Hq, Hp. by_computation. }
  exists w1. split; [exact Hend|]. by rewrite Htr1, Htr.
Defined.

(** ** Histories of the callbacks *)

Section Histories.

Context {A : Type} `{ResultAccumulator A}.

Implicit Types (w : World A) (k : Command).

Lemma reachable_trans w0 w1 w2 :
  reachable w0 w1 -> reachable w1 w2 -> reachable w0 w2.
Proof.
  intros H01. induction 1 as [|w2 ev w3 _ IH Hex]; [done|].
  by eapply reachable_step.
Qed.

(** What one step does to the callbacks called, the callbacks held and
    the futures: callbacks at the front of those held are dropped, or none
    is; or a new future is made whose callback joins the end of those
    held; or the first callback held is called and leaves, its future
    being settled. *)
Lemma exec_history ev w w' :
  Inv w ->
  exec ev w = Some w' ->
  (settlements (trace w') = settlements (trace w) /\
   promises w' = promises w /\
   exists pre, in_play (this w) = pre ++ in_play (this w'))
  \/
  (settlements (trace w') = settlements (trace w) /\
   promises w' = promises w ++ [Pending] /\
   in_play (this w') = in_play (this w) ++ [length (promises w)])
  \/
  (exists prev rest st,
     in_play (this w) = prev :: rest /\
     settlements (trace w') = settlements (trace w) ++ [prev] /\
     in_play (this w') = rest /\
     st <> Pending /\
     promises w' = alter (settle st) prev (promises w)).
Proof.
  intros HI Hex.
  assert (Hsame : forall w1 : World A,
    settlements (trace w1) = settlements (trace w) ->
    promises w1 = promises w ->
    in_play (this w1) = in_play (this w) ->
    settlements (trace w1) = settlements (trace w) /\
    promises w1 = promises w /\
    exists pre, in_play (this w) = pre ++ in_play (this w1)).
  { intros w1 ? ? Hp. repeat split; try done. exists []. by rewrite Hp. }
  destruct ev as [c|re me|ce|ce|sv|c chunk|c|c]; simpl in Hex.
  - (* sendCommand *)
    injection Hex as <-. right; left.
    unfold sendCommand, sendCommand_executor; simpl.
    destruct (onReceiveCommand (this w)) as [conn|] eqn:Hhook.
    + destruct (inv_idle w HI conn Hhook) as [Hcur Hq].
      unfold onReceiveCommand_body, in_play; simpl. rewrite Hq, Hcur; simpl.
      by rewrite settlements_app, app_nil_r.
    + unfold in_play; simpl. by rewrite app_assoc, fmap_app.
  - (* start *)
    injection Hex as <-. left. apply Hsame; unfold start;
      (destruct re as [e|]; [|destruct me as [e|]]); simpl;
      rewrite ?settlements_app; simpl; by rewrite ?app_nil_r.
  - (* shutdown *)
    injection Hex as <-. left.
    assert (Hpre : exists pre,
      in_play (this w) = pre ++ (cb <$> commandQueue (this w))).
    { unfold in_play. rewrite fmap_app. by eexists. }
    unfold shutdown; simpl.
    destruct (currentSocket (this w)) as [c|]; simpl;
      (destruct (socketServer (this w)) as [sv|]; simpl; [destruct ce as [e|]; simpl|]);
      rewrite ?settlements_app; simpl; rewrite ?app_nil_r; done.
  - (* safeShutdown *)
    injection Hex as <-. left.
    assert (Hpre : exists pre,
      in_play (this w) = pre ++ (cb <$> commandQueue (this w))).
    { unfold in_play. rewrite fmap_app. by eexists. }
    unfold shutdown; simpl.
    destruct (currentSocket (this w)) as [c|]; simpl;
      (destruct (socketServer (this w)) as [sv|]; simpl; [destruct ce as [e|]; simpl|]);
      rewrite ?settlements_app; simpl; rewrite ?app_nil_r; done.
  - (* connection *)
    destruct (servers w !! sv) as [s|]; simpl in Hex; [|done].
    destruct (listening s); [|done]. injection Hex as <-. left.
    apply Hsame; unfold on_connection; simpl;
      destruct (hasConnected (this w)); simpl;
      rewrite ?settlements_app; simpl; by rewrite ?app_nil_r.
  - (* data *)
    destruct (conns w !! c) as [sv|]; simpl in Hex; [|done]. injection Hex as <-.
    left. by apply Hsame.
  - (* end *)
    destruct (conns w !! c) as [sv|]; simpl in Hex; [|done].
    destruct (servers w !! sv) as [s|]; simpl in Hex; [|done].
    revert Hex. unfold on_end, end_resolve_prior.
    destruct (curCommand (this w)) as [prev|] eqn:Hcur.
    + destruct (getResult (response s)) as [result r2].
      destruct (needsMoreData result).
      * unfold end_dispatch_next, onReceiveCommand_body; simpl.
        intros Hex. apply (f_equal (fun o => default w o)) in Hex.
        simpl in Hex. subst w'. left. apply Hsame; unfold in_play; simpl;
          rewrite ?Hcur, ?settlements_app; simpl; by rewrite ?app_nil_r.
      * rewrite cb_call_cases. destruct (cb_throws result); [by simpl|].
        unfold end_dispatch_next, onReceiveCommand_body; simpl.
        rewrite cb_returns_this; simpl.
        destruct (commandQueue (this w)) as [|k rest] eqn:Hq; simpl;
          intros Hex; apply (f_equal (fun o => default w o)) in Hex;
          simpl in Hex; subst w'; right; right;
          exists (cb prev), (cb <$> commandQueue (this w)),
            (if strict_eq_zero (status result)
             then Fulfilled (value result)
             else Rejected (Error (value result)));
          unfold in_play; simpl;
          rewrite ?cb_returns_this, ?cb_returns_trace, ?cb_returns_promises,
            ?settlements_app, Hcur, Hq; simpl;
          (split; [done|]);
          (split; [destruct (strict_eq_zero _); simpl; by rewrite ?app_nil_r|]);
          (split; [done|]); (split; [by destruct (strict_eq_zero _)|done]).
    + unfold end_dispatch_next, onReceiveCommand_body; simpl.
      destruct (commandQueue (this w)) as [|k rest] eqn:Hq; simpl;
        intros Hex; apply (f_equal (fun o => default w o)) in Hex;
        simpl in Hex; subst w'; left; apply Hsame; unfold in_play; simpl;
        rewrite ?Hcur, ?Hq, ?settlements_app; simpl; by rewrite ?app_nil_r.
  - (* close *)
    destruct (conns w !! c) as [sv|]; simpl in Hex; [|done]. injection Hex as <-.
    left. by apply Hsame.
Qed.

Lemma Hist_new_world sock : Hist (new_world (A := A) sock).
Proof.
  split; simpl.
  - constructor.
  - intros p Hp. inversion Hp.
  - intros p st Hp. inversion Hp.
Qed.

Lemma exec_Hist ev w w' :
  Inv w -> Hist w -> exec ev w = Some w' -> Hist w'.
Proof.
  intros HI [Hsort Hbound Hset] Hex.
  destruct (exec_history ev w w' HI Hex)
    as [(Hs & Hp & pre & Hpre)
       |[(Hs & Hp & Hplay)
        |(prev & rest & st & Hplay & Hs & Hplay' & Hst & Hp)]].
  - (* callbacks dropped, or nothing *)
    rewrite Hpre in Hsort, Hbound. split; rewrite ?Hs, ?Hp.
    + apply StronglySorted_app in Hsort as (Hlt & Hs1 & Hs2).
      apply StronglySorted_app in Hs2 as (_ & _ & Hs2).
      apply StronglySorted_app. split; [|done].
      intros x1 x2 Hx1 Hx2. apply Hlt; [done|]. apply elem_of_app. auto.
    + intros p Hin. apply Hbound.
      rewrite !elem_of_app in *. tauto.
    + done.
  - (* a new future *)
    split; rewrite ?Hs, ?Hp, ?Hplay.
    + rewrite app_assoc. apply StronglySorted_app.
      split; [|split; [done|repeat constructor]].
      intros x1 x2 Hx1 ->%list_elem_of_singleton. by apply Hbound.
    + intros p Hin. rewrite length_app; simpl.
      rewrite app_assoc in Hin. apply elem_of_app in Hin as [Hin|Hin].
      * apply Hbound in Hin. lia.
      * apply list_elem_of_singleton in Hin as ->. lia.
    + intros p st [Hold|[Hlen Hnew]]%lookup_app_Some; [by apply Hset|].
      destruct (p - length (promises w)) eqn:Hd; [|by destruct n].
      injection Hnew as <-. split; [|done]. intros _ Hin.
      assert (p < length (promises w)); [|lia].
      apply Hbound, elem_of_app. auto.
  - (* the first callback is called *)
    rewrite Hplay in Hsort, Hbound.
    split; rewrite ?Hs, ?Hp, ?Hplay'.
    + by rewrite <- app_assoc.
    + intros p Hin. rewrite length_alter. apply Hbound.
      by rewrite <- app_assoc in Hin.
    + assert (Hfresh : prev ∉ settlements (trace w)).
      { intros Hin.
        apply StronglySorted_app in Hsort as (Hlt & _).
        assert (prev < prev); [|lia]. apply Hlt; [done|by left]. }
      assert (Hprev : prev < length (promises w))
        by (apply Hbound, elem_of_app; right; by left).
      intros p st' Hlk. destruct (decide (prev = p)) as [<-|Hne].
      * rewrite list_lookup_alter_eq in Hlk.
        destruct (promises w !! prev) as [st0|] eqn:Hst0; [|done].
        simpl in Hlk. injection Hlk as <-.
        assert (st0 = Pending) as -> by (by apply (Hset prev)).
        simpl. split; [done|]. intros Hnot. destruct Hnot.
        apply elem_of_app. right. by left.
      * rewrite list_lookup_alter_ne in Hlk by done.
        rewrite (Hset p st' Hlk), elem_of_app, list_elem_of_singleton.
        split; [intros Hn [?|?]; [done|congruence]|tauto].
Qed.

Lemma reachable_Hist sock w : reachable (new_world sock) w -> Hist w.
Proof.
  induction 1 as [|w ev w' Hr IH Hex]; [apply Hist_new_world|].
  eapply exec_Hist; [|exact IH|exact Hex]. by eapply reachable_Inv.
Qed.

Lemma StronglySorted_lt_NoDup (l : list nat) : StronglySorted lt l -> NoDup l.
Proof.
  induction 1 as [|x l _ IH Hall]; constructor; [|done].
  intros Hin. rewrite Forall_forall in Hall. specialize (Hall x Hin). lia.
Qed.

(** X1. The callbacks are called in the order in which their commands
    were submitted, each at most once.  In a world reachable from a new
    client, the futures whose callback was called, in the order of the
    calls, followed by the future of the command in flight and the futures
    of the queue, in the order of the queue, are strictly increasing, a
    future being numbered by its submission; and the future of the next
    sendCommand comes after all of them. *)
Theorem callbacks_in_submission_order sock w :
  reachable (new_world sock) w ->
  StronglySorted lt (settlements (trace w) ++ in_play (this w)) /\
  NoDup (settlements (trace w)) /\
  forall c p,
    p ∈ settlements (trace w) ++ in_play (this w) ->
    p < fst (sendCommand c w).
Proof.
  intros Hreach. destruct (reachable_Hist sock w Hreach) as [Hsort Hbound _].
  split; [done|]. split.
  - apply StronglySorted_lt_NoDup. by apply StronglySorted_app in Hsort as (_ & ? & _).
  - intros c p Hin. unfold sendCommand.
    destruct (sendCommand_executor _ _ _); simpl; by apply Hbound.
Qed.

(** What shutdown leaves of the futures and of the callbacks held. *)
Lemma shutdown_history ce w :
  promises (fst (shutdown ce w)) = promises w /\
  in_play (this (fst (shutdown ce w))) = cb <$> commandQueue (this w) /\
  settlements (trace (fst (shutdown ce w))) = settlements (trace w).
Proof.
  unfold shutdown, in_play; simpl.
  destruct (currentSocket (this w)) as [c|]; simpl;
    (destruct (socketServer (this w)) as [sv|]; simpl; [destruct ce as [e|]; simpl|]);
    rewrite ?settlements_app; simpl; by rewrite ?app_nil_r.
Qed.

(** X3. shutdown abandons the command in flight: its callback is dropped
    without being called, so in every world that follows the shutdown its
    future is still pending, the client does not hold the callback, and
    neither resolve nor reject was called for it. *)
Theorem in_flight_future_abandoned_by_shutdown sock w k ce w2 :
  reachable (new_world sock) w ->
  curCommand (this w) = Some k ->
  reachable (fst (shutdown ce w)) w2 ->
  promises w2 !! cb k = Some Pending /\
  (cb k ∉ in_play (this w2)) /\
  (cb k ∉ settlements (trace w2)).
Proof.
  intros Hreach Hcur Hlater.
  pose proof (reachable_Inv sock w Hreach) as HI.
  assert (Hreach1 : reachable (new_world sock) (fst (shutdown ce w)))
    by (by eapply reachable_step with (ev := CallShutdown ce)).
  assert (Hinv : reachable (new_world sock) w2 /\
                 promises w2 !! cb k = Some Pending /\
                 cb k ∉ in_play (this w2)).
  { induction Hlater as [|w2 ev w3 _ IH Hex].
    - split; [done|]. destruct (shutdown_history ce w) as (-> & -> & _).
      pose proof (inv_nodup w HI) as Hnd. pose proof (inv_pending w HI) as Hp.
      unfold in_play in Hnd, Hp. rewrite Hcur in Hnd, Hp. simpl in Hnd, Hp.
      apply NoDup_cons in Hnd as [Hnotin _]. split; [|done].
      apply Hp. by left.
    - destruct IH as (Hr2 & Hpend & Hnotin).
      split; [by eapply reachable_step|].
      pose proof (reachable_Inv sock w2 Hr2) as HI2.
      destruct (exec_history ev w2 w3 HI2 Hex)
        as [(_ & Hp & pre & Hpre)
           |[(_ & Hp & Hplay)
            |(prev & rest & st & Hplay & _ & Hplay' & _ & Hp)]].
      + rewrite Hp. split; [done|]. intros Hin. apply Hnotin.
        rewrite Hpre. apply elem_of_app. auto.
      + apply lookup_lt_Some in Hpend as Hlt.
        rewrite Hp, Hplay. split; [by rewrite lookup_app_l|].
        intros [?|Heq%list_elem_of_singleton]%elem_of_app; [done|lia].
      + rewrite Hp, Hplay'. rewrite Hplay in Hnotin. split.
        * rewrite list_lookup_alter_ne; [done|].
          intros ->. apply Hnotin. by left.
        * intros Hin. apply Hnotin. by right. }
  destruct Hinv as (Hr2 & Hpend & Hnotin). split; [done|]. split; [done|].
  by apply (hist_settled w2 (reachable_Hist sock w2 Hr2) (cb k) Pending Hpend).
Qed.

End Histories.

(** ** Exchanges, submission and teardown *)

Section Exchanges.

Context {A : Type} `{ResultAccumulator A}.

Implicit Types (w : World A) (k : Command).

(** The events that do not end an exchange leave the commands and the
    futures alone. *)
Lemma quiet_frame ev w w' :
  quiet ev = true ->
  exec ev w = Some w' ->
  curCommand (this w') = curCommand (this w) /\
  commandQueue (this w') = commandQueue (this w) /\
  onReceiveCommand (this w') = onReceiveCommand (this w) /\
  promises w' = promises w /\
  settlements (trace w') = settlements (trace w).
Proof.
  intros Hq Hex. destruct ev as [c|re me|ce|ce|sv|c chunk|c|c]; try done;
    simpl in Hex.
  - destruct (servers w !! sv) as [s|]; simpl in Hex; [|done].
    destruct (listening s); [|done]. injection Hex as <-.
    unfold on_connection; simpl. destruct (hasConnected (this w)); simpl;
      rewrite ?settlements_app; simpl; by rewrite ?app_nil_r.
  - destruct (conns w !! c) as [sv|]; simpl in Hex; [|done].
    by injection Hex as <-.
  - destruct (conns w !! c) as [sv|]; simpl in Hex; [|done].
    by injection Hex as <-.
Qed.

Lemma run_quiet evs w w' :
  forallb quiet evs = true ->
  run evs w = Some w' ->
  curCommand (this w') = curCommand (this w) /\
  commandQueue (this w') = commandQueue (this w) /\
  onReceiveCommand (this w') = onReceiveCommand (this w) /\
  promises w' = promises w /\
  settlements (trace w') = settlements (trace w).
Proof.
  revert w. induction evs as [|ev evs IH]; simpl; intros w Hq Hrun.
  - by injection Hrun as <-.
  - apply andb_prop in Hq as [Hq1 Hq2].
    destruct (exec ev w) as [w1|] eqn:Hex; simpl in Hrun; [|done].
    destruct (quiet_frame ev w w1 Hq1 Hex) as (<- & <- & <- & <- & <-).
    by apply IH.
Qed.

(** An end event that finds a final result for the command in flight. *)
Lemma exec_end_final w c sv s prev result r1 :
  status result = JNum 0 \/ Error_throws (value result) = false ->
  promises w !! cb prev = Some Pending ->
  conns w !! c = Some sv ->
  servers w !! sv = Some s ->
  curCommand (this w) = Some prev ->
  getResult (response s) = (result, r1) ->
  needsMoreData result = false ->
  exists w',
    exec (EvEnd c) w = Some w' /\
    promises w' !! cb prev =
      Some (if strict_eq_zero (status result)
            then Fulfilled (value result)
            else Rejected (Error (value result))) /\
    settlements (trace w') = settlements (trace w) ++ [cb prev] /\
    curCommand (this w') = head (commandQueue (this w)) /\
    commandQueue (this w') = tail (commandQueue (this w)).
Proof.
  intros Hconv Hpend Hc Hs Hcur Hres Hfinal.
  assert (Hnothrow : cb_throws result = false).
  { unfold cb_throws. destruct Hconv as [->| ->]; [done|].
    by destruct (strict_eq_zero _). }
  simpl. rewrite Hc; simpl. rewrite Hs; simpl.
  unfold on_end, end_resolve_prior.
  rewrite Hcur, Hres, Hfinal, cb_call_cases, Hnothrow.
  unfold end_dispatch_next, onReceiveCommand_body; simpl.
  rewrite cb_returns_this; simpl.
  destruct (commandQueue (this w)) as [|k rest] eqn:Hq; simpl;
    (eexists; split; [reflexivity|]); simpl;
    rewrite ?cb_returns_this, ?cb_returns_trace, ?cb_returns_promises, ?settlements_app,
      ?list_lookup_alter_eq, ?Hpend, ?Hq; simpl;
    (split; [by destruct (strict_eq_zero _)|]);
    (split; [destruct (strict_eq_zero _); simpl; by rewrite ?app_nil_r|done]).
Qed.

(** X4. A result that arrives in two parts reaches the future of the
    command it answers.  When the first end event finds the result of the
    command in flight incomplete, and connections are accepted, data
    arrives and connections close in any way, the next end event with a
    final result, of status 0 or with a value of which an Error can be
    built, settles the future of the original command with that result,
    as the first callback called since; the command that was at the head
    of the queue all the while is only sent then. *)
Theorem split_result_reaches_original_future sock w c1 sv1 s1 prev res1 r1 :
  reachable (new_world sock) w ->
  conns w !! c1 = Some sv1 ->
  servers w !! sv1 = Some s1 ->
  curCommand (this w) = Some prev ->
  getResult (response s1) = (res1, r1) ->
  needsMoreData res1 = true ->
  exists w1,
    exec (EvEnd c1) w = Some w1 /\
    forall evs w1' c2 sv2 s2 result r2,
      forallb quiet evs = true ->
      run evs w1 = Some w1' ->
      conns w1' !! c2 = Some sv2 ->
      servers w1' !! sv2 = Some s2 ->
      getResult (response s2) = (result, r2) ->
      needsMoreData result = false ->
      status result = JNum 0 \/ Error_throws (value result) = false ->
      exists w2,
        exec (EvEnd c2) w1' = Some w2 /\
        promises w2 !! cb prev =
          Some (if strict_eq_zero (status result)
                then Fulfilled (value result)
                else Rejected (Error (value result))) /\
        settlements (trace w2) = settlements (trace w) ++ [cb prev] /\
        curCommand (this w2) = head (commandQueue (this w)) /\
        commandQueue (this w2) = tail (commandQueue (this w)).
Proof.
  intros Hreach Hc1 Hs1 Hcur Hres1 Hmore.
  pose proof (reachable_Inv sock w Hreach) as HI.
  assert (Hpend : promises w !! cb prev = Some Pending).
  { apply (inv_pending w HI). unfold in_play. rewrite Hcur. by left. }
  assert (Hex1 : exists w1,
    exec (EvEnd c1) w = Some w1 /\
    curCommand (this w1) = Some (continuation_of prev) /\
    commandQueue (this w1) = commandQueue (this w) /\
    promises w1 = promises w /\
    settlements (trace w1) = settlements (trace w)).
  { simpl. rewrite Hc1; simpl. rewrite Hs1; simpl.
    unfold on_end, end_resolve_prior. rewrite Hcur, Hres1, Hmore.
    unfold end_dispatch_next, onReceiveCommand_body; simpl.
    eexists; split; [reflexivity|]. simpl.
    rewrite settlements_app; simpl. by rewrite app_nil_r. }
  destruct Hex1 as (w1 & Hex1 & Hcur1 & Hq1 & Hp1 & Hs1').
  exists w1. split; [done|].
  intros evs w1' c2 sv2 s2 result r2 Hquiet Hrun Hc2 Hs2 Hres2 Hfinal Hconv.
  destruct (run_quiet evs w1 w1' Hquiet Hrun) as (Hcur' & Hq' & _ & Hp' & Hs'').
  destruct (exec_end_final w1' c2 sv2 s2 (continuation_of prev) result r2)
    as (w2 & Hex2 & Hprom & Hset & Hhead & Htail); try done.
  { simpl. by rewrite Hp', Hp1. }
  { by rewrite Hcur'. }
  exists w2. split; [done|]. simpl in Hprom, Hset.
  rewrite Hs'', Hs1' in Hset. rewrite Hq', Hq1 in Hhead, Htail. done.
Qed.

(** X2. A failure result whose value cannot be converted to a string
    makes the callback throw: [new Error(value)] throws before reject is
    called, so the end handler aborts in its first half.  The future is not
    settled and neither resolve nor reject is called, the command in flight
    is not cleared, the queue and the stored closure are untouched and
    nothing is written: the handler leaves the world as it found it, apart
    from the accumulator, which has given out the result. *)
Theorem callback_throw_aborts_end_handler w c sv s prev result r1 :
  conns w !! c = Some sv ->
  servers w !! sv = Some s ->
  curCommand (this w) = Some prev ->
  getResult (response s) = (result, r1) ->
  needsMoreData result = false ->
  status result <> JNum 0 ->
  Error_throws (value result) = true ->
  cb_call (cb prev) result w =
    Throw (TypeError "Cannot convert object to primitive value") w /\
  on_end c (response s) w =
    (r1, Throw (TypeError "Cannot convert object to primitive value") w) /\
  exec (EvEnd c) w = None.
Proof.
  intros Hc Hs Hcur Hres Hfinal Hst Hconv.
  assert (Hz : strict_eq_zero (status result) = false).
  { destruct (strict_eq_zero (status result)) eqn:Hz; [|done].
    by apply strict_eq_zero_spec in Hz. }
  assert (Hcb : cb_call (cb prev) result w =
                Throw (TypeError "Cannot convert object to primitive value") w).
  { unfold cb_call. by rewrite Hz, Hconv. }
  assert (Hend : on_end c (response s) w =
    (r1, Throw (TypeError "Cannot convert object to primitive value") w)).
  { unfold on_end, end_resolve_prior. by rewrite Hcur, Hres, Hfinal, Hcb. }
  split; [done|]. split; [done|].
  simpl. rewrite Hc; simpl. rewrite Hs; simpl. by rewrite Hend.
Qed.

(** X5. sendCommand sends at once exactly when a closure is stored.  In
    a world reachable from a new client: if a closure is stored, the
    command submitted becomes the command in flight and its own frame is
    written, followed by the end of the write side, on the connection of
    the closure; if no closure is stored, nothing is written, the command
    in flight stays as it is, and the new command goes to the tail of the
    queue; and no closure is stored while a command is in flight or the
    queue is not empty. *)
Theorem sendCommand_dispatches_iff_idle sock w c :
  reachable (new_world sock) w ->
  (forall conn,
     onReceiveCommand (this w) = Some conn ->
     curCommand (this (snd (sendCommand c w))) =
       Some {| cmd := c; cb := fst (sendCommand c w) |} /\
     commandQueue (this (snd (sendCommand c w))) = [] /\
     onReceiveCommand (this (snd (sendCommand c w))) = None /\
     trace (snd (sendCommand c w)) =
       trace w ++ [SocketWrite conn (JSON_stringify_cmd c); SocketEnd conn]) /\
  (onReceiveCommand (this w) = None ->
   curCommand (this (snd (sendCommand c w))) = curCommand (this w) /\
   commandQueue (this (snd (sendCommand c w))) =
     commandQueue (this w) ++ [{| cmd := c; cb := fst (sendCommand c w) |}] /\
   onReceiveCommand (this (snd (sendCommand c w))) = None /\
   trace (snd (sendCommand c w)) = trace w) /\
  (curCommand (this w) <> None \/ commandQueue (this w) <> [] ->
   onReceiveCommand (this w) = None).
Proof.
  intros Hreach. pose proof (reachable_Inv sock w Hreach) as HI.
  unfold sendCommand, sendCommand_executor; simpl. split; [|split].
  - intros conn Hhook. destruct (inv_idle w HI conn Hhook) as [Hcur Hq].
    rewrite Hhook. unfold onReceiveCommand_body; simpl. by rewrite Hq.
  - intros Hnone. rewrite Hnone. simpl. by rewrite Hnone.
  - intros Hbusy.
    destruct (onReceiveCommand (this w)) as [conn|] eqn:Hhook; [|done].
    destruct (inv_idle w HI conn Hhook) as [Hcur Hq].
    destruct Hbusy; congruence.
Qed.

(** X6. shutdown when closing the server fails: the promise of the call
    is rejected with the error of close, while safeShutdown on the same
    world is fulfilled and leaves the same world.  The command in flight,
    the closure and the current socket are cleared all the same and the
    socket is ended and destroyed, but the server stays in socketServer,
    and neither the futures nor the queue change.  The next shutdown
    therefore closes the same server again. *)
Theorem shutdown_with_failing_close w sv e :
  socketServer (this w) = Some sv ->
  exists w1,
    shutdown (Some e) w = (w1, Rejected e) /\
    safeShutdown (Some e) w = (w1, Fulfilled JUndefined) /\
    curCommand (this w1) = None /\
    onReceiveCommand (this w1) = None /\
    currentSocket (this w1) = None /\
    socketServer (this w1) = Some sv /\
    servers w1 = servers w /\
    promises w1 = promises w /\
    commandQueue (this w1) = commandQueue (this w) /\
    trace w1 = trace w ++
      match currentSocket (this w) with
      | Some c => [SocketEnd c; SocketDestroy c]
      | None => []
      end ++ [ServerClose sv] /\
    forall ce,
      trace (fst (shutdown ce w1)) = trace w1 ++ [ServerClose sv] /\
      (ce = None ->
       snd (shutdown ce w1) = Fulfilled JUndefined /\
       socketServer (this (fst (shutdown ce w1))) = None).
Proof.
  intros Hsv. unfold safeShutdown, shutdown; simpl.
  destruct (currentSocket (this w)) as [c|] eqn:Hcs; simpl; rewrite ?Hsv; simpl;
    (eexists; split; [reflexivity|]); simpl;
    rewrite <- ?app_assoc, ?Hcs; repeat (split; [done|]);
    intros ce; rewrite ?Hcs; simpl; rewrite ?Hsv; simpl;
    destruct ce as [e2|]; simpl;
    (split; [by rewrite <- ?app_assoc|]); by intros.
Qed.

(** X7. The close handler clears currentSocket whichever connection
    closes.  After the close event of any accepted connection no socket is
    tracked, so a shutdown that follows ends and destroys no socket, also
    when another connection had been accepted last and is still open; it
    only closes the server, if there is one. *)
Theorem close_of_any_connection_clears_current_socket w c sv w' :
  conns w !! c = Some sv ->
  exec (EvClose c) w = Some w' ->
  currentSocket (this w') = None /\
  forall ce,
    trace (fst (shutdown ce w')) =
      trace w ++ match socketServer (this w) with
                 | Some sv0 => [ServerClose sv0]
                 | None => []
                 end.
Proof.
  intros Hc Hex. simpl in Hex. rewrite Hc in Hex. simpl in Hex.
  injection Hex as <-. split; [done|].
  intros ce. unfold shutdown, on_close; simpl.
  destruct (socketServer (this w)) as [sv0|]; simpl;
    [destruct ce as [e|]; simpl|]; by rewrite ?app_nil_r.
Qed.

(** X12. The commands of the queue outlive shutdown.  shutdown clears
    the command in flight and the closure but not the queue, so when a
    connection that it did not destroy ends afterwards, the end handler
    finds no command in flight, resets the accumulator and sends the head
    of the queue on that connection as at any other time. *)
Theorem queued_commands_survive_shutdown w ce c sv s k rest :
  conns w !! c = Some sv ->
  servers w !! sv = Some s ->
  currentSocket (this w) <> Some c ->
  commandQueue (this w) = k :: rest ->
  commandQueue (this (fst (shutdown ce w))) = k :: rest /\
  exists w',
    exec (EvEnd c) (fst (shutdown ce w)) = Some w' /\
    curCommand (this w') = Some k /\
    commandQueue (this w') = rest /\
    trace w' = trace (fst (shutdown ce w)) ++
               [SocketWrite c (JSON_stringify_cmd (cmd k)); SocketEnd c] /\
    exists s', servers w' !! sv = Some s' /\
               response s' = resetBuffer (response s).
Proof.
  intros Hc Hs Hcs Hq.
  assert (Hw1 : exists w1,
    fst (shutdown ce w) = w1 /\
    curCommand (this w1) = None /\
    commandQueue (this w1) = k :: rest /\
    conns w1 = conns w /\
    exists s1, servers w1 !! sv = Some s1 /\ response s1 = response s).
  { assert (Halter : forall x, exists s1,
      alter (set_listening false) x (servers w) !! sv = Some s1 /\
      response s1 = response s).
    { intros x. destruct (decide (x = sv)) as [->|Hx].
      - rewrite list_lookup_alter_eq, Hs. simpl. eauto.
      - rewrite list_lookup_alter_ne by done. eauto. }
    eexists. split; [reflexivity|]. unfold shutdown; simpl.
    destruct (currentSocket (this w)) as [c0|]; simpl;
      (destruct (socketServer (this w)) as [x|]; simpl; [destruct ce as [e|]; simpl|]);
      repeat (split; [done|]); eauto. }
  destruct Hw1 as (w1 & -> & Hcur1 & Hq1 & Hc1 & s1 & Hs1 & Hr1).
  split; [done|].
  simpl. rewrite Hc1, Hc; simpl. rewrite Hs1; simpl.
  unfold on_end, end_resolve_prior, end_dispatch_next. rewrite Hcur1; simpl.
  rewrite Hq1. unfold onReceiveCommand_body; simpl. rewrite Hq1.
  eexists. split; [reflexivity|]. simpl. repeat (split; [done|]).
  rewrite list_lookup_alter_eq, Hs1. simpl. eexists. split; [done|].
  simpl. by rewrite Hr1.
Qed.

End Exchanges.

(** ** Servers and frames *)

Section Frames.

Context {A : Type} `{ResultAccumulator A}.

Implicit Types (w : World A) (k : Command).

(** A server that [socketServer] does not name is out of reach of the
    client: no step changes whether it listens, and no step makes
    [socketServer] name it. *)
Lemma exec_unnamed_server ev w w' sv s :
  exec ev w = Some w' ->
  servers w !! sv = Some s ->
  socketServer (this w) <> Some sv ->
  socketServer (this w') <> Some sv /\
  exists s', servers w' !! sv = Some s' /\ listening s' = listening s.
Proof.
  intros Hex Hs Hne.
  assert (Halter : forall (f : Server A -> Server A) x,
    (forall s0, listening (f s0) = listening s0) ->
    exists s', alter f x (servers w) !! sv = Some s' /\ listening s' = listening s).
  { intros f x Hf. destruct (decide (x = sv)) as [->|Hx].
    - rewrite list_lookup_alter_eq, Hs. simpl. eauto.
    - rewrite list_lookup_alter_ne by done. eauto. }
  destruct ev as [c|re me|ce|ce|x|c chunk|c|c]; simpl in Hex.
  - injection Hex as <-. unfold sendCommand, sendCommand_executor; simpl.
    destruct (onReceiveCommand (this w)) as [conn|]; simpl; [|eauto].
    unfold onReceiveCommand_body; simpl.
    destruct (commandQueue (this w) ++ _); simpl; eauto.
  - injection Hex as <-. apply lookup_lt_Some in Hs as Hlt. unfold start.
    destruct re as [e|]; [|destruct me as [e|]]; simpl;
      rewrite lookup_app_l by done; (split; [intros [= ?]; lia|eauto]).
  - injection Hex as <-. unfold shutdown; simpl.
    destruct (currentSocket (this w)) as [c|]; simpl;
      (destruct (socketServer (this w)) as [x|] eqn:Hx; simpl;
       [destruct ce as [e|]; simpl|]);
      rewrite ?Hx; (split; [done|]); eauto.
    all: rewrite list_lookup_alter_ne by congruence; eauto.
  - injection Hex as <-. unfold shutdown; simpl.
    destruct (currentSocket (this w)) as [c|]; simpl;
      (destruct (socketServer (this w)) as [x|] eqn:Hx; simpl;
       [destruct ce as [e|]; simpl|]);
      rewrite ?Hx; (split; [done|]); eauto.
    all: rewrite list_lookup_alter_ne by congruence; eauto.
  - destruct (servers w !! x) as [sx|]; simpl in Hex; [|done].
    destruct (listening sx); [|done]. injection Hex as <-.
    unfold on_connection; simpl. destruct (hasConnected (this w)); simpl;
      (split; [done|]); [eauto|]. by apply Halter.
  - destruct (conns w !! c) as [x|]; simpl in Hex; [|done]. injection Hex as <-.
    simpl. split; [done|]. by apply Halter.
  - destruct (conns w !! c) as [x|]; simpl in Hex; [|done].
    destruct (servers w !! x) as [sx|]; simpl in Hex; [|done].
    destruct (on_end c (response sx) w) as [r1 [w1|e w1]] eqn:Hend; [|done].
    injection Hex as <-. simpl.
    apply on_end_frame in Hend as (Hsv & _ & _ & Hss & _). rewrite Hsv, Hss.
    split; [done|]. by apply Halter.
  - destruct (conns w !! c) as [x|]; simpl in Hex; [|done]. injection Hex as <-.
    simpl. eauto.
Qed.

(** X8. A start without a shutdown before it orphans the server of the
    earlier start.  socketServer then names the new server, and in every
    later world it never names the earlier one again, so no shutdown
    closes the earlier server: whether it listens never changes. *)
Theorem start_without_shutdown_orphans_server w sv s re me w2 :
  socketServer (this w) = Some sv ->
  servers w !! sv = Some s ->
  reachable (snd (start re me w)) w2 ->
  socketServer (this (snd (start re me w))) = Some (length (servers w)) /\
  socketServer (this w2) <> Some sv /\
  exists s', servers w2 !! sv = Some s' /\ listening s' = listening s.
Proof.
  intros Hss Hs Hreach. apply lookup_lt_Some in Hs as Hlt.
  split; [unfold start; by destruct re as [e|]; [|destruct me as [e|]]|].
  induction Hreach as [|w2 ev w3 _ IH Hex].
  - unfold start.
    destruct re as [e|]; [|destruct me as [e|]]; simpl;
      rewrite lookup_app_l by done; (split; [intros [= ?]; lia|eauto]).
  - destruct IH as (Hne & s' & Hs' & Hl).
    destruct (exec_unnamed_server ev w2 w3 sv s' Hex Hs' Hne) as (Hne' & s'' & Hs'' & Hl').
    split; [done|]. exists s''. split; [done|congruence].
Qed.

Lemma framed_app es1 es2 : framed es1 -> framed es2 -> framed (es1 ++ es2).
Proof.
  induction 1 as [|conn id rest _ IH|e rest He _ IH]; intros H2; simpl.
  - done.
  - apply framed_write. by apply IH.
  - apply framed_other; [done|]. by apply IH.
Qed.

Lemma exec_framed ev w w' :
  framed (trace w) -> exec ev w = Some w' -> framed (trace w').
Proof.
  intros Hf Hex.
  destruct ev as [c|re me|ce|ce|sv|c chunk|c|c]; simpl in Hex.
  - injection Hex as <-. unfold sendCommand, sendCommand_executor; simpl.
    destruct (onReceiveCommand (this w)) as [conn|]; simpl; [|done].
    unfold onReceiveCommand_body; simpl.
    destruct (commandQueue (this w) ++ _); simpl; [done|].
    apply framed_app; [done|framed_block].
  - injection Hex as <-. unfold start.
    destruct re as [e|]; [|destruct me as [e|]]; simpl;
      rewrite <- ?app_assoc; (apply framed_app; [done|framed_block]).
  - injection Hex as <-. unfold shutdown; simpl.
    destruct (currentSocket (this w)) as [c|]; simpl;
      (destruct (socketServer (this w)) as [sv|]; simpl; [destruct ce as [e|]; simpl|]);
      rewrite <- ?app_assoc; first [done|apply framed_app; [done|framed_block]].
  - injection Hex as <-. unfold shutdown; simpl.
    destruct (currentSocket (this w)) as [c|]; simpl;
      (destruct (socketServer (this w)) as [sv|]; simpl; [destruct ce as [e|]; simpl|]);
      rewrite <- ?app_assoc; first [done|apply framed_app; [done|framed_block]].
  - destruct (servers w !! sv) as [s|]; simpl in Hex; [|done].
    destruct (listening s); [|done]. injection Hex as <-.
    unfold on_connection; simpl. destruct (hasConnected (this w)); simpl; [done|].
    apply framed_app; [done|framed_block].
  - destruct (conns w !! c) as [sv|]; simpl in Hex; [|done].
    by injection Hex as <-.
  - destruct (conns w !! c) as [sv|]; simpl in Hex; [|done].
    destruct (servers w !! sv) as [s|]; simpl in Hex; [|done].
    revert Hex. unfold on_end, end_resolve_prior.
    destruct (curCommand (this w)) as [prev|].
    + destruct (getResult (response s)) as [result r2].
      destruct (needsMoreData result);
        unfold end_dispatch_next, onReceiveCommand_body; simpl.
      * intros Hex. apply (f_equal (fun o => default w o)) in Hex.
        simpl in Hex. subst w'. simpl. apply framed_app; [done|framed_block].
      * rewrite cb_call_cases. destruct (cb_throws result); [by simpl|].
        simpl. rewrite cb_returns_this; simpl.
        destruct (commandQueue (this w)) as [|k rest]; simpl;
          intros Hex; apply (f_equal (fun o => default w o)) in Hex;
          simpl in Hex; subst w'; simpl; rewrite cb_returns_trace, <- ?app_assoc;
          (apply framed_app; [done|]); destruct (strict_eq_zero _); simpl;
          framed_block.
    + unfold end_dispatch_next, onReceiveCommand_body; simpl.
      destruct (commandQueue (this w)) as [|k rest]; simpl;
        intros Hex; apply (f_equal (fun o => default w o)) in Hex;
        simpl in Hex; subst w'; simpl; [done|].
      apply framed_app; [done|framed_block].
  - destruct (conns w !! c) as [sv|]; simpl in Hex; [|done].
    by injection Hex as <-.
Qed.

(** X9. Whatever the calls and the socket events, the proxy writes
    nothing but frames of commands, and each write is followed at once by
    the end of the write side of the same connection: the trace of every
    world reachable from a new client is framed. *)
Theorem every_write_is_a_frame_then_end sock w :
  reachable (new_world sock) w -> framed (trace w).
Proof.
  induction 1 as [|w ev w' _ IH Hex]; [constructor|by eapply exec_framed].
Qed.

Lemma known_command_mono ids more c :
  known_command ids c -> known_command (ids ++ more) c.
Proof. intros [?|?]; [by left|right]. apply elem_of_app. auto. Qed.

Lemma Known_mono ids more w : Known ids w -> Known (ids ++ more) w.
Proof.
  intros [Hheld Hwritten]. split.
  - intros k Hk. by apply known_command_mono, Hheld.
  - intros conn d Hd. destruct (Hwritten conn d Hd) as (c & Hc & ->).
    exists c. split; [by apply known_command_mono|done].
Qed.

Lemma exec_Known ids ev w w' :
  Known ids w -> exec ev w = Some w' -> Known (ids ++ submitted [ev]) w'.
Proof.
  intros HK Hex.
  assert (Hsame : forall w1 : World A,
    (forall k, k ∈ option_list (curCommand (this w1)) ++ commandQueue (this w1) ->
               k ∈ option_list (curCommand (this w)) ++ commandQueue (this w)) ->
    writes (trace w1) = writes (trace w) ->
    Known (ids ++ []) w1).
  { intros w1 Hsub Hwr. apply Known_mono. destruct HK as [Hheld Hwritten].
    split; [intros k Hk; by apply Hheld, Hsub|by rewrite Hwr]. }
  destruct ev as [c|re me|ce|ce|sv|c chunk|c|c]; simpl in Hex;
    unfold submitted; simpl.
  - (* sendCommand *)
    injection Hex as <-. apply (Known_mono ids [c]) in HK as [Hheld Hwritten].
    assert (Hnew : forall k,
      k ∈ commandQueue (this w) ++ [{| cmd := c; cb := length (promises w) |}] ->
      known_command (ids ++ [c]) (cmd k)).
    { intros k [Hk|Hk%list_elem_of_singleton]%elem_of_app.
      - apply Hheld, elem_of_app. auto.
      - subst k. right. apply elem_of_app. right. by left. }
    unfold sendCommand, sendCommand_executor; simpl.
    destruct (onReceiveCommand (this w)) as [conn|]; simpl.
    + unfold onReceiveCommand_body; simpl.
      destruct (commandQueue (this w) ++ _) as [|kd rest] eqn:Hq; simpl.
      * destruct (commandQueue (this w)); discriminate Hq.
      * split; simpl.
        -- done.
        -- intros c0 d. rewrite writes_app; simpl.
           intros [Hd|Hd%list_elem_of_singleton]%elem_of_app;
             [by eapply Hwritten|].
           injection Hd as -> ->. exists (cmd kd). split; [|done].
           apply Hnew. by left.
    + split; simpl; [|done].
      intros k [Hk|Hk]%elem_of_app.
      * apply Hheld, elem_of_app. auto.
      * by apply Hnew.
  - (* start *)
    injection Hex as <-. apply Hsame; unfold start;
      (destruct re as [e|]; [|destruct me as [e|]]); simpl; try done;
      rewrite ?writes_app; simpl; by rewrite ?app_nil_r.
  - (* shutdown *)
    injection Hex as <-. apply Hsame; unfold shutdown; simpl;
      (destruct (currentSocket (this w)) as [c|]; simpl;
       (destruct (socketServer (this w)) as [sv|]; simpl;
        [destruct ce as [e|]; simpl|]));
      rewrite ?writes_app; simpl; rewrite ?app_nil_r; try done;
      intros k Hk; apply elem_of_app; auto.
  - (* safeShutdown *)
    injection Hex as <-. apply Hsame; unfold shutdown; simpl;
      (destruct (currentSocket (this w)) as [c|]; simpl;
       (destruct (socketServer (this w)) as [sv|]; simpl;
        [destruct ce as [e|]; simpl|]));
      rewrite ?writes_app; simpl; rewrite ?app_nil_r; try done;
      intros k Hk; apply elem_of_app; auto.
  - (* connection *)
    destruct (servers w !! sv) as [s|]; simpl in Hex; [|done].
    destruct (listening s); [|done]. injection Hex as <-.
    apply Hsame; unfold on_connection; simpl;
      destruct (hasConnected (this w)); simpl; try done;
      rewrite ?writes_app; simpl; by rewrite ?app_nil_r.
  - (* data *)
    destruct (conns w !! c) as [sv|]; simpl in Hex; [|done]. injection Hex as <-.
    by apply Hsame.
  - (* end *)
    destruct (conns w !! c) as [sv|]; simpl in Hex; [|done].
    destruct (servers w !! sv) as [s|]; simpl in Hex; [|done].
    apply Known_mono. destruct HK as [Hheld Hwritten].
    revert Hex. unfold on_end, end_resolve_prior.
    destruct (curCommand (this w)) as [prev|] eqn:Hcur; simpl in Hheld.
    + destruct (getResult (response s)) as [result r2].
      destruct (needsMoreData result);
        unfold end_dispatch_next, onReceiveCommand_body; simpl.
      * intros Hex. apply (f_equal (fun o => default w o)) in Hex.
        simpl in Hex. subst w'.
        split; simpl.
        -- intros k [->|Hk]%elem_of_cons; [by left|]. apply Hheld. by right.
        -- intros c0 d. rewrite writes_app; simpl.
           intros [Hd|Hd%list_elem_of_singleton]%elem_of_app;
             [by eapply Hwritten|].
           injection Hd as -> ->. exists MORE_COMMAND. split; [by left|done].
      * rewrite cb_call_cases. destruct (cb_throws result); [by simpl|].
        simpl. rewrite cb_returns_this; simpl.
        destruct (commandQueue (this w)) as [|kd rest] eqn:Hq; simpl;
          intros Hex; apply (f_equal (fun o => default w o)) in Hex;
          simpl in Hex; subst w'; split; simpl;
          rewrite ?cb_returns_this, ?cb_returns_trace, ?writes_app; simpl;
          rewrite ?Hq.
        -- intros k Hk. inversion Hk.
        -- intros c0 d Hd. eapply Hwritten.
           destruct (strict_eq_zero _); simpl in Hd; by rewrite app_nil_r in Hd.
        -- intros k Hk. apply Hheld. by right.
        -- intros c0 d Hd.
           assert (Hd' : (c0, d) ∈ writes (trace w) ++
                           [(c, JSON_stringify_cmd (cmd kd))]).
           { destruct (strict_eq_zero _); simpl in Hd; by rewrite app_nil_r in Hd. }
           apply elem_of_app in Hd' as [Hd'|Hd'%list_elem_of_singleton];
             [by eapply Hwritten|].
           injection Hd' as -> ->. exists (cmd kd). split; [|done].
           apply Hheld. right. by left.
    + unfold end_dispatch_next, onReceiveCommand_body; simpl.
      destruct (commandQueue (this w)) as [|kd rest] eqn:Hq; simpl;
        intros Hex; apply (f_equal (fun o => default w o)) in Hex;
        simpl in Hex; subst w'; split; simpl; rewrite ?Hcur, ?Hq; try done.
      intros c0 d. rewrite writes_app; simpl.
      intros [Hd|Hd%list_elem_of_singleton]%elem_of_app; [by eapply Hwritten|].
      injection Hd as -> ->. exists (cmd kd). split; [|done].
      apply Hheld. by left.
  - (* close *)
    destruct (conns w !! c) as [sv|]; simpl in Hex; [|done]. injection Hex as <-.
    by apply Hsame.
Qed.

Lemma submitted_cons ev evs : submitted (ev :: evs) = submitted [ev] ++ submitted evs.
Proof. unfold submitted. simpl. by destruct ev. Qed.

Lemma run_Known evs : forall ids w w',
  Known ids w -> run evs w = Some w' -> Known (ids ++ submitted evs) w'.
Proof.
  induction evs as [|ev evs IH]; intros ids w w' HK Hrun; simpl in Hrun.
  - injection Hrun as <-. by apply Known_mono.
  - destruct (exec ev w) as [w1|] eqn:Hex; simpl in Hrun; [|done].
    rewrite submitted_cons, app_assoc.
    eapply IH; [|exact Hrun]. by eapply exec_Known.
Qed.

(** X10. The proxy never sends a command of its own making.  After any
    run of calls and socket events from a new client, every frame written
    is JSON.stringify({cmd}) of an identifier that was passed to
    sendCommand in that run or of the continuation request '#more', and
    the same holds of the commands still held. *)
Theorem written_frames_are_submitted_commands sock evs w :
  run evs (new_world sock) = Some w ->
  (forall conn d,
     (conn, d) ∈ writes (trace w) ->
     exists c, (c = MORE_COMMAND \/ c ∈ submitted evs) /\
               d = JSON_stringify_cmd c) /\
  (forall k,
     k ∈ option_list (curCommand (this w)) ++ commandQueue (this w) ->
     cmd k = MORE_COMMAND \/ cmd k ∈ submitted evs).
Proof.
  intros Hrun.
  assert (H0 : Known [] (new_world (A := A) sock)).
  { split; simpl.
    - intros k Hk. inversion Hk.
    - intros conn d Hd. inversion Hd. }
  destruct (run_Known evs [] _ w H0 Hrun) as [Hheld Hwritten].
  split; [exact Hwritten|exact Hheld].
Qed.

End Frames.

(** ** The frame determines the command *)

Lemma string_app_assoc (s1 s2 s3 : string) :
  ((s1 ++ s2) ++ s3 = s1 ++ (s2 ++ s3))%string.
Proof. induction s1 as [|a s1 IH]; simpl; [done|by rewrite IH]. Qed.

Lemma JSON_unescape_escape (a : ascii) (t : string) :
  JSON_unescape_all (JSON_escape a ++ t)%string = push a (JSON_unescape_all t).
Proof. destruct a as [[] [] [] [] [] [] [] []]; reflexivity. Qed.

Lemma JSON_unescape_escape_all (s rest : string) :
  JSON_unescape_all (JSON_escape_all s ++ String dquote rest)%string = Some (s, rest).
Proof.
  induction s as [|a s IH]; simpl; [done|].
  by rewrite string_app_assoc, JSON_unescape_escape, IH.
Qed.

(** X11. The frame determines the command: two identifiers with the same
    frame JSON.stringify({cmd}) are the same identifier, so the peer can
    always tell which command it was sent. *)
Theorem JSON_stringify_cmd_injective (c1 c2 : string) :
  JSON_stringify_cmd c1 = JSON_stringify_cmd c2 -> c1 = c2.
Proof.
  intros Heq.
  apply (f_equal (fun s => JSON_unescape_all
                             (String.substring 8 (String.length s - 8) s))) in Heq.
  revert Heq. unfold JSON_stringify_cmd, JSON_quote. simpl.
  rewrite !string_app_assoc. simpl.
  rewrite !Nat.sub_0_r.
  assert (Hwhole : forall t, String.substring 0 (String.length t) t = t).
  { induction t as [|a t IH]; simpl; [done|by rewrite IH]. }
  rewrite !Hwhole, !JSON_unescape_escape_all. by intros [= ->].
Qed.

(** ** The further properties on concrete runs *)

Lemma callbacks_in_submission_order_witness :
  reachable (new_world default_sock) settled_world /\
  settlements (trace settled_world) = [0] /\
  in_play (this settled_world) = [1] /\
  StronglySorted lt (settlements (trace settled_world) ++ in_play (this settled_world)) /\
  fst (sendCommand "third" settled_world) = 2.
Proof.
  assert (Hr : reachable (new_world default_sock) settled_world)
    by (eapply world_after_reachable; by_computation).
  split; [exact Hr|]. split; [by_computation|]. split; [by_computation|].
  destruct (callbacks_in_submission_order default_sock settled_world Hr)
    as (Hsorted & _ & _).
  split; [exact Hsorted|by_computation].
Defined.

Lemma in_flight_future_abandoned_by_shutdown_witness :
  reachable (new_world default_sock) in_flight_world /\
  curCommand (this in_flight_world) = Some {| cmd := "getSession"; cb := 0 |} /\
  promises (fst (shutdown None in_flight_world)) !! 0 = Some Pending /\
  forall w2,
    reachable (fst (shutdown None in_flight_world)) w2 ->
    promises w2 !! 0 = Some Pending.
Proof.
  assert (Hr : reachable (new_world default_sock) in_flight_world)
    by (eapply world_after_reachable; by_computation).
  assert (Hcur : curCommand (this in_flight_world) =
                   Some {| cmd := "getSession"; cb := 0 |}) by by_computation.
  split; [exact Hr|]. split; [exact Hcur|]. split; [by_computation|].
  intros w2 Hlater.
  exact (proj1 (in_flight_future_abandoned_by_shutdown default_sock in_flight_world
                  _ None w2 Hr Hcur Hlater)).
Defined.

Lemma split_result_reaches_original_future_witness :
  reachable (new_world default_sock) partial_world /\
  exists w1 w1' w2,
    exec (EvEnd 1) partial_world = Some w1 /\
    run [EvClose 1; EvConnection 0; EvData 2 frame_abc_tail] w1 = Some w1' /\
    exec (EvEnd 2) w1' = Some w2 /\
    promises w2 !! 0 = Some (Fulfilled (JString "abc")) /\
    curCommand (this w2) = Some {| cmd := "next"; cb := 1 |}.
Proof.
  assert (Hr : reachable (new_world default_sock) partial_world)
    by (eapply world_after_reachable; by_computation).
  assert (Hc : conns partial_world !! 1 = Some 0) by by_computation.
  assert (Hs : servers partial_world !! 0 =
    Some {| start_future := Fulfilled (JBool true);
            executor_future := Fulfilled JUndefined;
            response := {| Scripted.bufferedData := "2,{" |};
            listening := true |}) by by_computation.
  assert (Hcur : curCommand (this partial_world) =
                   Some {| cmd := "getSession"; cb := 0 |}) by by_computation.
  assert (Hres : getResult {| Scripted.bufferedData := "2,{" |} =
    ({| status := JUndefined; value := JUndefined; needsMoreData := true |},
     {| Scripted.bufferedData := "2,{" |})) by by_computation.
  split; [exact Hr|].
  destruct (split_result_reaches_original_future default_sock partial_world
              1 0 _ _ _ _ Hr Hc Hs Hcur Hres eq_refl)
    as (w1 & Hex1 & Hnext).
  assert (Hw1 : Some w1 = Some (world_after
    [CallStart None None; CallSendCommand "getSession"; CallSendCommand "next";
     EvConnection 0; EvEnd 0; EvClose 0; EvConnection 0; EvData 1 "2,{";
     EvEnd 1])) by (rewrite <- Hex1; by_computation).
  injection Hw1 as ->.
  set (w1 := world_after _) in *.
  set (w1' := world_after
    [CallStart None None; CallSendCommand "getSession"; CallSendCommand "next";
     EvConnection 0; EvEnd 0; EvClose 0; EvConnection 0; EvData 1 "2,{";
     EvEnd 1; EvClose 1; EvConnection 0; EvData 2 frame_abc_tail]).
  assert (Hrun : run [EvClose 1; EvConnection 0; EvData 2 frame_abc_tail] w1 =
                   Some w1') by by_computation.
  assert (Hc2 : conns w1' !! 2 = Some 0) by by_computation.
  assert (Hs2 : servers w1' !! 0 =
    Some {| start_future := Fulfilled (JBool true);
            executor_future := Fulfilled JUndefined;
            response := {| Scripted.bufferedData := frame_abc |};
            listening := true |}) by by_computation.
  assert (Hres2 : getResult {| Scripted.bufferedData := frame_abc |} =
    ({| status := JNum 0; value := JString "abc"; needsMoreData := false |},
     {| Scripted.bufferedData := "" |})) by by_computation.
  destruct (Hnext [EvClose 1; EvConnection 0; EvData 2 frame_abc_tail]
              w1' 2 0 _ _ _ eq_refl Hrun Hc2 Hs2 Hres2 eq_refl
              (or_introl eq_refl))
    as (w2 & Hex2 & Hprom & _ & Hhead & _).
  exists w1, w1', w2. split; [exact Hex1|]. split; [exact Hrun|].
  split; [exact Hex2|]. split; [exact Hprom|].
  rewrite Hhead. by_computation.
Defined.

Lemma sendCommand_dispatches_iff_idle_witness :
  reachable (new_world default_sock) waiting_world /\
  reachable (new_world default_sock) in_flight_world /\
  reachable (new_world default_sock) started_world /\
  onReceiveCommand (this waiting_world) = Some 0 /\
  trace (snd (sendCommand "getSession" waiting_world)) =
    trace waiting_world ++
    [SocketWrite 0 (JSON_stringify_cmd "getSession"); SocketEnd 0] /\
  onReceiveCommand (this in_flight_world) = None /\
  trace (snd (sendCommand "next" in_flight_world)) = trace in_flight_world /\
  trace (snd (sendCommand "getSession" started_world)) = trace started_world.
Proof.
  assert (Hr1 : reachable (new_world default_sock) waiting_world)
    by (eapply world_after_reachable; by_computation).
  assert (Hr2 : reachable (new_world default_sock) in_flight_world)
    by (eapply world_after_reachable; by_computation).
  assert (Hr3 : reachable (new_world default_sock) started_world)
    by (eapply world_after_reachable; by_computation).
  assert (Hhook : onReceiveCommand (this waiting_world) = Some 0)
    by by_computation.
  assert (Hnone : onReceiveCommand (this started_world) = None)
    by by_computation.
  assert (Hbusy : curCommand (this in_flight_world) <> None \/
                  commandQueue (this in_flight_world) <> [])
    by (left; vm_compute; discriminate).
  split; [exact Hr1|]. split; [exact Hr2|]. split; [exact Hr3|].
  split; [exact Hhook|].
  destruct (sendCommand_dispatches_iff_idle default_sock waiting_world
              "getSession" Hr1) as (Hidle & _ & _).
  destruct (Hidle 0 Hhook) as (_ & _ & _ & Htr).
  destruct (sendCommand_dispatches_iff_idle default_sock in_flight_world
              "next" Hr2) as (_ & Hqueue & Hinv).
  pose proof (Hinv Hbusy) as Hnone2.
  destruct (Hqueue Hnone2) as (_ & _ & _ & Htr2).
  destruct (sendCommand_dispatches_iff_idle default_sock started_world
              "getSession" Hr3) as (_ & Hqueue3 & _).
  destruct (Hqueue3 Hnone) as (_ & _ & _ & Htr3).
  split; [exact Htr|]. split; [exact Hnone2|]. split; [exact Htr2|exact Htr3].
Defined.

Lemma shutdown_with_failing_close_witness :
  socketServer (this connected_world) = Some 0 /\
  exists w1,
    shutdown (Some EACCES) connected_world = (w1, Rejected EACCES) /\
    safeShutdown (Some EACCES) connected_world = (w1, Fulfilled JUndefined) /\
    socketServer (this w1) = Some 0 /\
    trace w1 = trace connected_world ++
               [SocketEnd 0; SocketDestroy 0; ServerClose 0].
Proof.
  assert (Hsv : socketServer (this connected_world) = Some 0) by by_computation.
  split; [exact Hsv|].
  destruct (shutdown_with_failing_close connected_world 0 EACCES Hsv)
    as (w1 & Hsh & Hsafe & _ & _ & _ & Hss & _ & _ & _ & Htr & _).
  exists w1. split; [exact Hsh|]. split; [exact Hsafe|]. split; [exact Hss|].
  rewrite Htr. by_computation.
Defined.

Lemma close_of_any_connection_clears_current_socket_witness :
  currentSocket (this two_connections_world) = Some 1 /\
  exists w',
    exec (EvClose 0) two_connections_world = Some w' /\
    currentSocket (this w') = None /\
    trace (fst (shutdown None w')) =
      trace two_connections_world ++ [ServerClose 0].
Proof.
  split; [by_computation|].
  assert (Hc : conns two_connections_world !! 0 = Some 0) by by_computation.
  assert (Hex : exec (EvClose 0) two_connections_world =
                  Some (on_close two_connections_world)) by by_computation.
  destruct (close_of_any_connection_clears_current_socket
              two_connections_world 0 0 _ Hc Hex) as [Hcs Htr].
  eexists. split; [exact Hex|]. split; [exact Hcs|].
  rewrite (Htr None). by_computation.
Defined.

Lemma start_without_shutdown_orphans_server_witness :
  socketServer (this started_world) = Some 0 /\
  socketServer (this (snd (start None None started_world))) = Some 1 /\
  forall w2,
    reachable (snd (start None None started_world)) w2 ->
    exists s', servers w2 !! 0 = Some s' /\ listening s' = true.
Proof.
  assert (Hss : socketServer (this started_world) = Some 0) by by_computation.
  assert (Hs : servers started_world !! 0 =
    Some {| start_future := Pending; executor_future := Fulfilled JUndefined;
            response := new_UIAutoResponse; listening := true |})
    by by_computation.
  split; [exact Hss|]. split; [by_computation|].
  intros w2 Hreach.
  destruct (start_without_shutdown_orphans_server started_world 0 _
              None None w2 Hss Hs Hreach) as (_ & _ & s' & Hs' & Hl).
  exists s'. split; [exact Hs'|exact Hl].
Defined.

Lemma every_write_is_a_frame_then_end_witness :
  reachable (new_world default_sock) settled_world /\
  writes (trace settled_world) =
    [(0, JSON_stringify_cmd "getSession"); (1, JSON_stringify_cmd "next")] /\
  framed (trace settled_world).
Proof.
  assert (Hr : reachable (new_world default_sock) settled_world)
    by (eapply world_after_reachable; by_computation).
  split; [exact Hr|]. split; [by_computation|].
  exact (every_write_is_a_frame_then_end default_sock settled_world Hr).
Defined.

Lemma written_frames_are_submitted_commands_witness :
  run settled_run (new_world default_sock) = Some settled_world /\
  submitted settled_run = ["getSession"; "next"] /\
  forall conn d,
    (conn, d) ∈ writes (trace settled_world) ->
    exists c, (c = MORE_COMMAND \/ c ∈ submitted settled_run) /\
              d = JSON_stringify_cmd c.
Proof.
  assert (Hrun : run settled_run (new_world default_sock) = Some settled_world)
    by by_computation.
  split; [exact Hrun|]. split; [by_computation|].
  exact (proj1 (written_frames_are_submitted_commands default_sock settled_run
                  settled_world Hrun)).
Defined.

Lemma JSON_stringify_cmd_injective_witness :
  JSON_stringify_cmd "#more" = JSON_stringify_cmd MORE_COMMAND /\
  "#more" = MORE_COMMAND.
Proof.
  assert (Heq : JSON_stringify_cmd "#more" = JSON_stringify_cmd MORE_COMMAND)
    by reflexivity.
  split; [exact Heq|].
  exact (JSON_stringify_cmd_injective "#more" MORE_COMMAND Heq).
Defined.

Lemma queued_commands_survive_shutdown_witness :
  currentSocket (this two_connections_queued_world) = Some 1 /\
  commandQueue (this two_connections_queued_world) =
    [{| cmd := "getSession"; cb := 0 |}] /\
  exists w',
    exec (EvEnd 0) (fst (shutdown None two_connections_queued_world)) = Some w' /\
    curCommand (this w') = Some {| cmd := "getSession"; cb := 0 |} /\
    trace w' = trace (fst (shutdown None two_connections_queued_world)) ++
               [SocketWrite 0 (JSON_stringify_cmd "getSession"); SocketEnd 0].
Proof.
  assert (Hc : conns two_connections_queued_world !! 0 = Some 0)
    by by_computation.
  assert (Hs : servers two_connections_queued_world !! 0 =
    Some {| start_future := Fulfilled (JBool true);
            executor_future := Fulfilled JUndefined;
            response := new_UIAutoResponse; listening := true |})
    by by_computation.
  assert (Hcs : currentSocket (this two_connections_queued_world) = Some 1)
    by by_computation.
  assert (Hne : currentSocket (this two_connections_queued_world) <> Some 0)
    by (rewrite Hcs; discriminate).
  assert (Hq : commandQueue (this two_connections_queued_world) =
                 [{| cmd := "getSession"; cb := 0 |}]) by by_computation.
  split; [exact Hcs|]. split; [exact Hq|].
  destruct (queued_commands_survive_shutdown two_connections_queued_world None
              0 0 _ _ _ Hc Hs Hne Hq) as (_ & w' & Hex & Hcur & _ & Htr & _).
  exists w'. split; [exact Hex|]. split; [exact Hcur|exact Htr].
Defined.

Lemma callback_throw_aborts_end_handler_witness :
  curCommand (this (answered_world frame_toString_error)) =
    Some {| cmd := "getSession"; cb := 0 |} /\
  getResult {| Scripted.bufferedData := frame_toString_error |} =
    ({| status := JNum 1; value := JObject [("toString", JNum 1)];
        needsMoreData := false |},
     {| Scripted.bufferedData := "" |}) /\
  ToString (JObject [("toString", JNum 1)]) = None /\
  exec (EvEnd 1) (answered_world frame_toString_error) = None /\
  promises (answered_world frame_toString_error) !! 0 = Some Pending.
Proof.
  assert (Hc : conns (answered_world frame_toString_error) !! 1 = Some 0)
    by by_computation.
  assert (Hs : servers (answered_world frame_toString_error) !! 0 =
    Some {| start_future := Fulfilled (JBool true);
            executor_future := Fulfilled JUndefined;
            response := {| Scripted.bufferedData := frame_toString_error |};
            listening := true |}) by by_computation.
  assert (Hcur : curCommand (this (answered_world frame_toString_error)) =
                   Some {| cmd := "getSession"; cb := 0 |}) by by_computation.
  assert (Hres : getResult {| Scripted.bufferedData := frame_toString_error |} =
    ({| status := JNum 1; value := JObject [("toString", JNum 1)];
        needsMoreData := false |},
     {| Scripted.bufferedData := "" |})) by by_computation.
  assert (Hst : JNum 1 <> JNum 0) by discriminate.
  split; [exact Hcur|]. split; [exact Hres|]. split; [by_computation|].
  destruct (callback_throw_aborts_end_handler
              (answered_world frame_toString_error) 1 0 _ _ _ _
              Hc Hs Hcur Hres eq_refl Hst eq_refl) as (_ & _ & Hex).
  split; [exact Hex|by_computation].
Defined.
